(** * FilteredBackingStore: a shallow embedding of
      eden/fs/store/FilteredBackingStore.cpp

    The store decorates an inner [BackingStore] with a [Filter].  Ids that
    cross its boundary are composite: a filtered root id is
    [varint(len(root)) ++ root ++ filterId], a filtered object id is a
    [FilteredObjectId].  This file embeds the functions of the translation
    unit as Rocq functions and states their properties.

    Conventions.
    - [std::string], [folly::StringPiece] and byte strings are [string]
      (a list of 8-bit [ascii] characters; NUL is ["000"%char]).
    - [uint64_t] and [size_t] are [N] with the wrap-around written out.
    - A C++ evaluation either returns, throws, or has undefined behaviour
      (a read or write outside an object's storage): type [outcome].
    - A future is the pair of a readiness flag and the result it holds or
      will hold. *)

From Stdlib Require Import NArith List String Ascii Bool Lia.
Import ListNotations.

Local Open Scope string_scope.
Local Open Scope N_scope.

(* ------------------------------------------------------------------ *)
(** ** Results of evaluating C++ code *)

Inductive exception : Type :=
| invalid_argument (what : string)
| runtime_error (what : string).

Definition what (e : exception) : string :=
  match e with
  | invalid_argument w => w
  | runtime_error w => w
  end.

Definition class_name (e : exception) : string :=
  match e with
  | invalid_argument _ => "std::invalid_argument"
  | runtime_error _ => "std::runtime_error"
  end.

(** [folly::exception_wrapper::what()], which is what [Try::exception()]
    answers with: the class name, a colon, the message. *)
Definition exception_wrapper_what (e : exception) : string :=
  class_name e ++ ": " ++ what e.

(** [folly::Try<T>]: a value or an exception. *)
Inductive Try (T : Type) : Type :=
| Value (v : T)
| Exception (e : exception).
Arguments Value {T} v.
Arguments Exception {T} e.

Definition hasValue {T} (t : Try T) : bool :=
  match t with Value _ => true | Exception _ => false end.


(** What evaluating an expression of this translation unit does: it
    returns [v], it throws [e], or its behaviour is undefined: the standard
    asks nothing of it. *)
Inductive outcome (T : Type) : Type :=
| Ok (v : T)
| Throw (e : exception)
| Undefined.
Arguments Ok {T} v.
Arguments Throw {T} e.
Arguments Undefined {T}.

Definition bind {A B} (c : outcome A) (k : A -> outcome B) : outcome B :=
  match c with
  | Ok v => k v
  | Throw e => Throw e
  | Undefined => Undefined
  end.

Notation "x <- c ;; k" := (bind c (fun x => k))
  (at level 61, c at next level, right associativity).

Definition ofTry {T} (t : Try T) : outcome T :=
  match t with
  | Value v => Ok v
  | Exception e => Throw e
  end.

(** The pointer is dereferenced without a check: no object, no behaviour. *)
Definition deref {T} (o : option T) : outcome T :=
  match o with
  | Some v => Ok v
  | None => Undefined
  end.

(* ------------------------------------------------------------------ *)
(** ** Character storage *)

Definition NUL : ascii := "000"%char.

(** The bytes a [const char*] into a [std::string] can read: the
    characters from the pointer to the end, then the terminating NUL that
    [std::string] keeps behind its last character. *)
Definition storage (range : string) : string := range ++ String NUL "".

(** The first [n] characters of [mem]; [None] when [mem] is shorter. *)
Fixpoint read_n (mem : string) (n : N) : option string :=
  if n =? 0 then Some ""
  else match mem with
       | EmptyString => None
       | String c mem' => option_map (String c) (read_n mem' (n - 1))
       end.

(** [mem] from offset [n] on; [None] when the offset is past its end. *)
Fixpoint skip_n (mem : string) (n : N) : option string :=
  if n =? 0 then Some mem
  else match mem with
       | EmptyString => None
       | String _ mem' => skip_n mem' (n - 1)
       end.

(** The characters before the first NUL of [mem]; [None] when [mem] holds
    no NUL. *)
Fixpoint read_cstr (mem : string) : option string :=
  match mem with
  | EmptyString => None
  | String c mem' =>
      if Ascii.eqb c NUL then Some ""
      else option_map (String c) (read_cstr mem')
  end.

(** [std::string{p, n}] for [p] the begin of [range]: copies [n]
    characters; they must all lie in the storage.  A count beyond the
    storage breaks the constructor's precondition, which the standard
    leaves undefined; what then happens is the library's choice (libstdc++
    throws [std::length_error] for a count above [max_size()], before it
    reads, and otherwise copies from behind the storage). *)
Definition string_of_ptr_len (range : string) (n : N) : outcome string :=
  deref (read_n (storage range) n).

(** [std::string{p + off}] for [p] the begin of [range]: the constructor
    from a C string, which copies up to the first NUL. *)
Definition string_of_cstr (range : string) (off : N) : outcome string :=
  deref (match skip_n (storage range) off with
         | Some mem => read_cstr mem
         | None => None
         end).

(** What the C-string constructor keeps of [s]: the characters before its
    first NUL. *)
Fixpoint c_str (s : string) : string :=
  match s with
  | EmptyString => ""
  | String c s' => if Ascii.eqb c NUL then "" else String c (c_str s')
  end.

Fixpoint has_NUL (s : string) : bool :=
  match s with
  | EmptyString => false
  | String c s' => Ascii.eqb c NUL || has_NUL s'
  end.

(* ------------------------------------------------------------------ *)
(** ** folly/Varint.h *)

Module Varint.

(** Modelled from the spec: [folly::kMaxVarintLength64].  folly/Varint.h is
    not under src/; the spec fixes the format of [folly::encodeVarint] and
    [folly::tryDecodeVarint]: unsigned LEB128, 7 bits per byte, most
    significant bit as continuation flag, at most 10 bytes. *)
Definition kMaxVarintLength64 : nat := 10.

Definition uint64_t (n : N) : N := n mod 2 ^ 64.

Definition uint8_t (n : N) : ascii := ascii_of_N (n mod 256).

(** Modelled from the spec: the loop of [folly::encodeVarint],
    [while (val >= 128) { *p++ = 0x80 | (val & 0x7f); val >>= 7; }
     *p++ = uint8_t(val);], over a buffer of [room] bytes.  A 64-bit value
    never needs more than the 10 bytes of the buffer
    ([VarintFacts.tryDecodeVarint_encodeVarint]). *)
Fixpoint encodeVarint_loop (room : nat) (val : N) : string :=
  match room with
  | O => ""
  | S room' =>
      if 128 <=? val
      then String (uint8_t (N.lor 128 (N.land val 127)))
                  (encodeVarint_loop room' (N.shiftr val 7))
      else String (uint8_t val) ""
  end.

(** Modelled from the spec: [folly::encodeVarint(val, buf)]; the
    result is the part of the buffer that was written. *)
Definition encodeVarint (val : N) : string :=
  encodeVarint_loop kMaxVarintLength64 (uint64_t val).

Inductive DecodeVarintError : Type := TooManyBytes | TooFewBytes.

Inductive Expected (T : Type) : Type :=
| Expect (v : T)
| Unexpected (e : DecodeVarintError).
Arguments Expect {T} v.
Arguments Unexpected {T} e.

(** Modelled from the spec: the loop of [folly::tryDecodeVarint].  Byte
    [i] contributes its low 7 bits at bit [7 * i]; the first byte without
    the continuation flag ends the number; the input may end too early, or
    all 10 bytes may carry the flag.  Returns the value and the range
    advanced past the varint. *)
Fixpoint tryDecodeVarint_loop (fuel : nat) (shift val : N) (p : string)
  : Expected (N * string) :=
  match fuel with
  | O => Unexpected TooManyBytes
  | S fuel' =>
      match p with
      | EmptyString => Unexpected TooFewBytes
      | String c p' =>
          let b := N_of_ascii c in
          let val' := uint64_t (N.lor val (N.shiftl (N.land b 127) shift)) in
          if b <? 128 then Expect (val', p')
          else tryDecodeVarint_loop fuel' (shift + 7) val' p'
      end
  end.

(** Modelled from the spec: [folly::tryDecodeVarint(Range&)]. *)
Definition tryDecodeVarint (data : string) : Expected (N * string) :=
  tryDecodeVarint_loop kMaxVarintLength64 0 0 data.

End Varint.

(* ------------------------------------------------------------------ *)
(** ** Filtered root ids *)

Record RootId : Type := mkRootId { value : string }.

(** [FilteredBackingStore::createFilteredRootId] *)
Definition createFilteredRootId (originalRootId filterId : string) : string :=
  let originalRootIdSize := N.of_nat (String.length originalRootId) in
  let varintBuf := Varint.encodeVarint originalRootIdSize in
  let buf := "" in
  let buf := buf ++ varintBuf in
  let buf := buf ++ originalRootId in
  let buf := buf ++ filterId in
  buf.

(** [parseFilterIdFromRootId] *)
Definition parseFilterIdFromRootId (rootId : RootId)
  : outcome (RootId * string) :=
  let rootRange := value rootId in
  match Varint.tryDecodeVarint rootRange with
  | Varint.Unexpected _ =>
      Throw (invalid_argument
        ("Could not decode varint; FilteredBackingStore expects a root ID in the form of <hashLengthVarint><scmHash><filterId>, got "
           ++ value rootId))
  | Varint.Expect (expectedLength, rootRange) =>
      root <- string_of_ptr_len rootRange expectedLength ;;
      filterId <- string_of_cstr rootRange expectedLength ;;
      Ok (mkRootId root, filterId)
  end.

(* ------------------------------------------------------------------ *)
(** ** Futures *)

(** An [ImmediateFuture] or [SemiFuture]: whether the result is available
    now ([isReady]), and the result the future holds or will hold. *)
Record Future (R : Type) : Type := mkFuture { isReady : bool; result : R }.
Arguments mkFuture {R} isReady result.
Arguments isReady {R} f.
Arguments result {R} f.

(** Futures handed out by the collaborators complete with a [folly::Try];
    the futures this translation unit builds on top of them carry an
    [outcome]. *)
Definition ImmediateFuture (T : Type) : Type := Future (outcome T).
Definition SemiFuture (T : Type) : Type := Future (outcome T).

Definition lift {T} (fut : Future (Try T)) : ImmediateFuture T :=
  mkFuture (isReady fut) (ofTry (result fut)).

(** [std::move(fut).thenValue(k)] for a continuation returning a value. *)
Definition thenValue {A B} (fut : ImmediateFuture A) (k : A -> outcome B)
  : ImmediateFuture B :=
  mkFuture (isReady fut) (bind (result fut) k).

(** [thenValue] for a continuation that itself returns a future. *)
Definition thenFuture {A B} (fut : ImmediateFuture A)
  (k : A -> ImmediateFuture B) : ImmediateFuture B :=
  match result fut with
  | Ok v => mkFuture (isReady fut && isReady (k v)) (result (k v))
  | Throw e => mkFuture (isReady fut) (Throw e)
  | Undefined => mkFuture (isReady fut) Undefined
  end.

(** [SemiFuture::deferValue]: the continuation runs once an executor
    drives the future. *)
Definition deferValue {A B} (fut : SemiFuture A) (k : A -> SemiFuture B)
  : SemiFuture B :=
  mkFuture false (bind (result fut) (fun v => result (k v))).

(** The results of the futures as a vector of [Try]. *)
Fixpoint collectTries {T} (results : list (outcome T))
  : outcome (list (Try T)) :=
  match results with
  | [] => Ok []
  | Ok v :: rest => tries <- collectTries rest ;; Ok (Value v :: tries)
  | Throw e :: rest => tries <- collectTries rest ;; Ok (Exception e :: tries)
  | Undefined :: _ => Undefined
  end.

(** [collectAll]: ready when every future is; it always completes with
    the vector of the individual results, in order. *)
Definition collectAll {T} (futures : list (ImmediateFuture T))
  : ImmediateFuture (list (Try T)) :=
  mkFuture (forallb isReady futures) (collectTries (map result futures)).

(** [std::move(fut).get()] on a ready future. *)
Definition get {T} (fut : ImmediateFuture T) : outcome T := result fut.

(* ------------------------------------------------------------------ *)
(** ** Data model: paths, ids, trees *)

Definition ObjectId : Type := string.

Inductive ObjectComparison : Type := Unknown | Identical | Different.

Definition ObjectComparison_eqb (a b : ObjectComparison) : bool :=
  match a, b with
  | Unknown, Unknown | Identical, Identical | Different, Different => true
  | _, _ => false
  end.

(** Modelled from the spec: paths (eden/fs/utils/PathFuncs.h is not under
    src/).  A path is a canonical forward-slash relative path; it supports
    concatenation and last-component extraction.  A relative path is kept
    as the list of its components, the empty path being [[]]. *)
Definition PathComponent : Type := string.
Definition RelativePath : Type := list PathComponent.

(** Modelled from the spec: [treePath + path], the concatenation of a
    path and a component. *)
Definition path_append (a : RelativePath) (b : PathComponent) : RelativePath :=
  (a ++ [b])%list.

(** Modelled from the spec: [basename()], the last component. *)
Definition basename (p : RelativePath) : PathComponent := last p "".

Inductive TreeEntryType : Type :=
| TREE | REGULAR_FILE | EXECUTABLE_FILE | SYMLINK.

Definition TreeEntryType_eqb (a b : TreeEntryType) : bool :=
  match a, b with
  | TREE, TREE | REGULAR_FILE, REGULAR_FILE
  | EXECUTABLE_FILE, EXECUTABLE_FILE | SYMLINK, SYMLINK => true
  | _, _ => false
  end.

Record TreeEntry : Type := mkTreeEntry
  { getHash : ObjectId; getType : TreeEntryType }.

Inductive CaseSensitivity : Type := Insensitive | Sensitive.

Module PathMap.

(** Modelled from the spec: the tree container (eden/fs/utils/PathMap.h is
    not under src/): an ordered, case-sensitivity-tagged mapping from
    basename to value.  Keys are kept in byte order; a lookup prefers the
    exact key and, in a case-insensitive map, falls back to the first key
    that is equal up to ASCII case; an insertion of a key the map already
    finds leaves the map as it is. *)
Record t (V : Type) : Type := mk
  { getCaseSensitivity : CaseSensitivity; items : list (PathComponent * V) }.
Arguments mk {V} getCaseSensitivity items.
Arguments getCaseSensitivity {V} _.
Arguments items {V} _.

Definition tolower (c : ascii) : ascii :=
  let n := N_of_ascii c in
  if (65 <=? n) && (n <=? 90) then ascii_of_N (n + 32) else c.

Fixpoint lowercase (s : string) : string :=
  match s with
  | EmptyString => EmptyString
  | String c s' => String (tolower c) (lowercase s')
  end.

Definition iequals (a b : PathComponent) : bool :=
  String.eqb (lowercase a) (lowercase b).

Fixpoint find_by {V} (eq : PathComponent -> PathComponent -> bool)
  (key : PathComponent) (l : list (PathComponent * V)) : option V :=
  match l with
  | [] => None
  | (k, v) :: rest => if eq key k then Some v else find_by eq key rest
  end.

(** Modelled from the spec: [PathMap::find]; [None] is [end()]. *)
Definition find {V} (m : t V) (key : PathComponent) : option V :=
  match find_by String.eqb key (items m) with
  | Some v => Some v
  | None =>
      match getCaseSensitivity m with
      | Insensitive => find_by iequals key (items m)
      | Sensitive => None
      end
  end.

Fixpoint insert_sorted {V} (key : PathComponent) (v : V)
  (l : list (PathComponent * V)) : list (PathComponent * V) :=
  match l with
  | [] => [(key, v)]
  | (k, w) :: rest =>
      if String.ltb key k then (key, v) :: (k, w) :: rest
      else (k, w) :: insert_sorted key v rest
  end.

(** Modelled from the spec: [PathMap::insert]. *)
Definition insert {V} (kv : PathComponent * V) (m : t V) : t V :=
  match find m (fst kv) with
  | Some _ => m
  | None => mk (getCaseSensitivity m) (insert_sorted (fst kv) (snd kv) (items m))
  end.

Definition empty {V} (cs : CaseSensitivity) : t V := mk cs [].

(** The comparison of keys a map of case sensitivity [cs] goes by. *)
Definition keyEqual (cs : CaseSensitivity) (a b : PathComponent) : bool :=
  match cs with
  | Sensitive => String.eqb a b
  | Insensitive => iequals a b
  end.

(** No two keys of the map are equal under the map's own comparison. *)
Fixpoint distinct_keys {V} (cs : CaseSensitivity)
  (l : list (PathComponent * V)) : bool :=
  match l with
  | [] => true
  | (k, _) :: rest =>
      negb (existsb (fun kv => keyEqual cs k (fst kv)) rest)
      && distinct_keys cs rest
  end.

Definition wf {V} (m : t V) : bool :=
  distinct_keys (getCaseSensitivity m) (items m).

End PathMap.

Record Tree : Type := mkTree
  { treeEntries : PathMap.t TreeEntry; getHash_tree : ObjectId }.

Record GetRootTreeResult : Type := mkGetRootTreeResult
  { tree : Tree; treeId : ObjectId }.

Inductive Origin : Type := FromNetworkFetch | FromMemoryCache | FromDiskCache.

Record GetTreeResult : Type := mkGetTreeResult
  { tree_of : Tree; origin : Origin }.

(* ------------------------------------------------------------------ *)
(** ** Collaborators *)

(** [Filter] (eden/fs/store/filter/Filter.h): [true] hides the path. *)
Class Filter : Type :=
  { isPathFiltered : RelativePath -> string -> Future (Try bool) }.

(** The operations of the inner [BackingStore] this file calls.
    [compareObjectsById] is a virtual call that returns a comparison or
    throws. *)
Class BackingStore : Type :=
  { inner_compareObjectsById : ObjectId -> ObjectId -> Try ObjectComparison;
    inner_getRootTree : RootId -> Future (Try GetRootTreeResult);
    inner_getTree : ObjectId -> Future (Try GetTreeResult);
    inner_prefetchBlobs : list ObjectId -> Future (Try unit) }.

Module FilteredObjectId.

(** Modelled from the spec: the filtered object id
    (eden/fs/store/filter/FilteredObjectId.h is not under src/): a tagged
    record, distinguished by a single-byte tag, that decodes to a tag, an
    optional path, an optional filter id and the inner id; a third,
    reserved kind of tag stands for every tag that is neither.  The byte
    layout is left to the codec. *)
Inductive FilteredObjectIdType : Type :=
| OBJECT_TYPE_BLOB
| OBJECT_TYPE_TREE
| OBJECT_TYPE_RESERVED (tag : N).

Definition type_eqb (a b : FilteredObjectIdType) : bool :=
  match a, b with
  | OBJECT_TYPE_BLOB, OBJECT_TYPE_BLOB => true
  | OBJECT_TYPE_TREE, OBJECT_TYPE_TREE => true
  | OBJECT_TYPE_RESERVED x, OBJECT_TYPE_RESERVED y => x =? y
  | _, _ => false
  end.

(** Modelled from the spec: what an id decodes to; [path] and [filter]
    exist for a tree only. *)
Inductive Fields : Type :=
| blobFields (object : ObjectId)
| treeFields (path : RelativePath) (filter : string) (object : ObjectId)
| reservedFields (tag : N) (object : ObjectId).

Definition f_type (f : Fields) : FilteredObjectIdType :=
  match f with
  | blobFields _ => OBJECT_TYPE_BLOB
  | treeFields _ _ _ => OBJECT_TYPE_TREE
  | reservedFields tag _ => OBJECT_TYPE_RESERVED tag
  end.

Definition f_path (f : Fields) : option RelativePath :=
  match f with
  | treeFields path _ _ => Some path
  | _ => None
  end.

Definition f_filter (f : Fields) : option string :=
  match f with
  | treeFields _ filter _ => Some filter
  | _ => None
  end.

Definition f_object (f : Fields) : ObjectId :=
  match f with
  | blobFields object => object
  | treeFields _ _ object => object
  | reservedFields _ object => object
  end.

(** Modelled from the spec: the codec, [encode_blob], [encode_tree] and
    [decode]; [decode] fails on an unknown tag or a truncated record.  The
    properties below hold for every codec. *)
Class Codec : Type :=
  { encode_blob : ObjectId -> string;
    encode_tree : RelativePath -> string -> ObjectId -> string;
    decode : string -> Try Fields }.

(** Modelled from the spec: the class [FilteredObjectId], the bytes
    ([getValue]) and what they decode to. *)
Record t : Type := mk { getValue : string; fields : Fields }.

Section WithCodec.
Context {codec : Codec}.

Definition fromObjectId (id : ObjectId) : outcome t :=
  f <- ofTry (decode id) ;; Ok (mk id f).

(** [FilteredObjectId{object}] *)
Definition ofBlob (object : ObjectId) : t :=
  mk (encode_blob object) (blobFields object).

(** [FilteredObjectId(path, filterId, object)] *)
Definition ofTree (path : RelativePath) (filterId : string)
  (object : ObjectId) : t :=
  mk (encode_tree path filterId object) (treeFields path filterId object).

End WithCodec.

Definition objectType (id : t) : FilteredObjectIdType := f_type (fields id).

Definition object (id : t) : ObjectId := f_object (fields id).

(** Modelled from the spec: the accessors [path] and [filter] fail on an
    id that is not a tree. *)
Definition path (id : t) : outcome RelativePath :=
  match f_path (fields id) with
  | Some p => Ok p
  | None => Throw (invalid_argument
              "Cannot determine path of non-tree FilteredObjectId")
  end.

Definition filter (id : t) : outcome string :=
  match f_filter (fields id) with
  | Some f => Ok f
  | None => Throw (invalid_argument
              "Cannot determine filter for non-tree FilteredObjectId")
  end.

End FilteredObjectId.

(* ------------------------------------------------------------------ *)
(** ** [std::vector] written through an output iterator *)

(** [*(out.begin() + i) = v]: defined only where [out] holds an element. *)
Definition assign_at {T} (out : list T) (i : nat) (v : T) : outcome (list T) :=
  if Nat.ltb i (List.length out)
  then Ok (firstn i out ++ v :: skipn (S i) out)%list
  else Undefined.

(** [std::transform(first, last, d_first, op)]: [*d_first++ = op( *first++ )]
    for every element; it neither resizes nor checks the destination. *)
Fixpoint std_transform {A B} (input : list A) (out : list B) (d_first : nat)
  (op : A -> outcome B) : outcome (list B) :=
  match input with
  | [] => Ok out
  | x :: rest =>
      y <- op x ;;
      out' <- assign_at out d_first y ;;
      std_transform rest out' (S d_first) op
  end.

(* ------------------------------------------------------------------ *)
(** ** FilteredBackingStore *)

Module FilteredBackingStore.
Import FilteredObjectId.

Section Store.
Context {backingStore_ : BackingStore} {filter_ : Filter} {codec : Codec}.

(** [FilteredBackingStore::pathAffectedByFilterChange] *)
Definition pathAffectedByFilterChange (pathOne pathTwo : RelativePath)
  (filterIdOne filterIdTwo : string) : ImmediateFuture bool :=
  let futures := [] in
  let futures := (futures ++ [lift (isPathFiltered pathOne filterIdOne)])%list in
  let futures := (futures ++ [lift (isPathFiltered pathTwo filterIdTwo)])%list in
  thenValue (collectAll futures) (fun isFilteredVec =>
    r0 <- deref (nth_error isFilteredVec 0) ;;
    r1 <- deref (nth_error isFilteredVec 1) ;;
    match r0, r1 with
    | Exception e, _ | Value _, Exception e =>
        (* If we're unable to get the results from either future, we throw. *)
        Throw (runtime_error
          ("Unable to determine if paths were affected by filter change: "
             ++ exception_wrapper_what e))
    | Value v0, Value v1 =>
        (* In neither or in both filters: not affected by the change. *)
        if Bool.eqb v0 v1 then Ok false
        (* In only one filter: affected in some way. *)
        else Ok true
    end).

(** [FilteredBackingStore::compareObjectsById].  The [{}] of the two
    messages stand for the formatted tags, whose formatter is declared
    with the absent [FilteredObjectId]. *)
Definition compareObjectsById (one two : ObjectId) : outcome ObjectComparison :=
  (* Same bytes: same filter, must be equal. *)
  if String.eqb one two then Ok Identical
  else
    filteredOne <- fromObjectId one ;;
    let typeOne := objectType filteredOne in
    filteredTwo <- fromObjectId two ;;
    let typeTwo := objectType filteredTwo in
    if negb (type_eqb typeOne typeTwo) then
      Throw (invalid_argument
        "Must compare objects of same type. Attempted to compare: {} vs {}")
    else if type_eqb typeOne OBJECT_TYPE_BLOB then
      ofTry
        (inner_compareObjectsById (object filteredOne) (object filteredTwo))
    else if type_eqb typeOne OBJECT_TYPE_TREE then
      filterOne <- filter filteredOne ;;
      filterTwo <- filter filteredTwo ;;
      if String.eqb filterOne filterTwo then
        ofTry
          (inner_compareObjectsById (object filteredOne) (object filteredTwo))
      else
        pathOne <- path filteredOne ;;
        pathTwo <- path filteredTwo ;;
        let pathAffected :=
          pathAffectedByFilterChange pathOne pathTwo filterOne filterTwo in
        if isReady pathAffected then
          affected <- get pathAffected ;;
          if (affected : bool) then Ok Different
          else
            res <- ofTry (inner_compareObjectsById (object filteredOne)
                            (object filteredTwo)) ;;
            if ObjectComparison_eqb res Identical then Ok Unknown
            else Ok res
        else
          (* Not ready: return Unknown early instead of chaining. *)
          Ok Unknown
    else
      Throw (runtime_error "Unknown object type: {}").

(** The loop of the continuation of [filterImpl] over the gathered
    results, filling [pathMap]. *)
Fixpoint filterImpl_loop (unfilteredTree : Tree) (filterId : string)
  (isFilteredVec : list (Try (RelativePath * bool)))
  (pathMap : PathMap.t TreeEntry) : outcome (PathMap.t TreeEntry) :=
  match isFilteredVec with
  | [] => Ok pathMap
  | Exception _ :: rest =>
      (* logged; continue *)
      filterImpl_loop unfilteredTree filterId rest pathMap
  | Value (relPath, isFiltered) :: rest =>
      if negb isFiltered then
        entry <- deref (PathMap.find (treeEntries unfilteredTree)
                          (basename relPath)) ;;
        let entryType := getType entry in
        let oid :=
          if TreeEntryType_eqb entryType TREE
          then getValue (ofTree relPath filterId (getHash entry))
          else getValue (ofBlob (getHash entry)) in
        let treeEntry := mkTreeEntry oid entryType in
        let pair := (basename relPath, treeEntry) in
        filterImpl_loop unfilteredTree filterId rest
          (PathMap.insert pair pathMap)
      else filterImpl_loop unfilteredTree filterId rest pathMap
  end.

(** [FilteredBackingStore::filterImpl] *)
Definition filterImpl (unfilteredTree : Tree) (treePath : RelativePath)
  (filterId : string) : ImmediateFuture (PathMap.t TreeEntry) :=
  let filter := filterId in
  let isFilteredFutures :=
    map (fun '(path, entry) =>
           let relPath := path_append treePath path in
           let filteredRes := lift (isPathFiltered relPath filter) in
           thenValue filteredRes
             (fun isFiltered : bool => Ok (relPath, isFiltered)))
        (PathMap.items (treeEntries unfilteredTree)) in
  thenValue (collectAll isFilteredFutures) (fun isFilteredVec =>
    let pathMap :=
      PathMap.empty (PathMap.getCaseSensitivity (treeEntries unfilteredTree)) in
    filterImpl_loop unfilteredTree filter isFilteredVec pathMap).

(** [FilteredBackingStore::getRootTree]; a malformed root id throws
    before any future exists. *)
Definition getRootTree (rootId : RootId)
  : outcome (ImmediateFuture GetRootTreeResult) :=
  parsed <- parseFilterIdFromRootId rootId ;;
  let '(parsedRootId, filterId) := parsed in
  let fut := lift (inner_getRootTree parsedRootId) in
  Ok (thenFuture fut (fun rootTreeResult =>
        let filterFut := filterImpl (tree rootTreeResult) [] filterId in
        thenValue filterFut (fun pathMap =>
          let rootFOID := ofTree [] filterId (treeId rootTreeResult) in
          Ok (mkGetRootTreeResult
                (mkTree pathMap (getValue rootFOID))
                (getValue rootFOID))))).

(** [FilteredBackingStore::getTree].  [filteredId.path()] and
    [filteredId.filter()] are arguments of one call, so the order of the
    two is unspecified; they are taken last argument first, as g++
    evaluates them.  On a tree id both return, on any other id both
    throw. *)
Definition getTree (id : ObjectId) : outcome (SemiFuture GetTreeResult) :=
  filteredId <- fromObjectId id ;;
  let unfilteredTree := lift (inner_getTree (object filteredId)) in
  Ok (deferValue unfilteredTree (fun result =>
        match filter filteredId, path filteredId with
        | Ok filterId, Ok treePath =>
            let filterRes := filterImpl (tree_of result) treePath filterId in
            thenValue filterRes (fun pathMap =>
              let tree := mkTree pathMap (getValue filteredId) in
              Ok (mkGetTreeResult tree (origin result)))
        | Ok _, Throw e | Throw e, _ => mkFuture true (Throw e)
        | _, _ => mkFuture true Undefined
        end)).

(** The vector [nonFilteredIds] that [prefetchBlobs] hands to the inner
    store: default-constructed, then written by [std::transform]. *)
Definition prefetchBlobs_batch (ids : list ObjectId) : outcome (list ObjectId) :=
  let nonFilteredIds : list ObjectId := [] in
  std_transform ids nonFilteredIds 0 (fun id =>
    filteredId <- fromObjectId id ;; Ok (object filteredId)).

(** [FilteredBackingStore::prefetchBlobs] *)
Definition prefetchBlobs (ids : list ObjectId) : outcome (SemiFuture unit) :=
  nonFilteredIds <- prefetchBlobs_batch ids ;;
  Ok (lift (inner_prefetchBlobs nonFilteredIds)).

End Store.
End FilteredBackingStore.

(* ------------------------------------------------------------------ *)
(** ** A concrete codec, inner store and filter

    The scenarios of the spec run against a fake inner store that returns
    a fixed tree and a filter that hides the paths of a literal list. *)

Module Scenario.
Import FilteredObjectId.

Fixpoint renderPath (p : RelativePath) : string :=
  match p with
  | [] => ""
  | [c] => c
  | c :: rest => c ++ "/" ++ renderPath rest
  end.

Fixpoint splitPath (cur : string) (s : string) : RelativePath :=
  match s with
  | EmptyString => match cur with EmptyString => [] | _ => [cur] end
  | String c s' =>
      if Ascii.eqb c "/" then cur :: splitPath "" s'
      else splitPath (cur ++ String c "") s'
  end.

Definition lengthPrefixed (s : string) : string :=
  Varint.encodeVarint (N.of_nat (String.length s)) ++ s.

Definition readLengthPrefixed (s : string) : option (string * string) :=
  match Varint.tryDecodeVarint s with
  | Varint.Expect (n, rest) =>
      match read_n rest n, skip_n rest n with
      | Some field, Some rest' => Some (field, rest')
      | _, _ => None
      end
  | Varint.Unexpected _ => None
  end.

Definition tagBlob : ascii := "016"%char.
Definition tagTree : ascii := "017"%char.

(** Modelled from the spec: one layout of the filtered object id, a tag
    byte followed by length-prefixed fields:
    [<tag><varint><filterId><varint><path><inner id>] for a tree and
    [<tag><inner id>] for a blob. *)
Definition serializeBlob (object : ObjectId) : string :=
  String tagBlob object.

Definition serializeTree (path : RelativePath) (filterId : string)
  (object : ObjectId) : string :=
  String tagTree (lengthPrefixed filterId ++ lengthPrefixed (renderPath path)
                    ++ object).

Definition parse (bytes : string) : Try Fields :=
  match bytes with
  | EmptyString => Exception (invalid_argument "empty FilteredObjectId")
  | String tag rest =>
      if Ascii.eqb tag tagBlob then Value (blobFields rest)
      else if Ascii.eqb tag tagTree then
        match readLengthPrefixed rest with
        | Some (filterId, rest') =>
            match readLengthPrefixed rest' with
            | Some (path, object) =>
                Value (treeFields (splitPath "" path) filterId object)
            | None => Exception (invalid_argument "truncated FilteredObjectId")
            end
        | None => Exception (invalid_argument "truncated FilteredObjectId")
        end
      else Exception (invalid_argument "Invalid FilteredObjectId type byte")
  end.

#[export] Instance codec : Codec :=
  {| encode_blob := serializeBlob;
     encode_tree := serializeTree;
     decode := parse |}.

Fixpoint path_eqb (a b : RelativePath) : bool :=
  match a, b with
  | [], [] => true
  | x :: a', y :: b' => String.eqb x y && path_eqb a' b'
  | _, _ => false
  end.

(** Filter ids: ["F"] hides [b], ["F1"] hides [p], ["flaky"] fails on [b],
    ["broken"] fails everywhere, ["slow"] never answers synchronously;
    every other filter id hides nothing. *)
#[export] Instance filter : Filter :=
  {| isPathFiltered := fun path filterId =>
       if String.eqb filterId "slow" then mkFuture false (Value false)
       else if String.eqb filterId "broken" then
         mkFuture true (Exception (runtime_error "filter unavailable"))
       else if String.eqb filterId "flaky" && path_eqb path ["b"] then
         mkFuture true (Exception (runtime_error "filter unavailable"))
       else if String.eqb filterId "F" then
         mkFuture true (Value (path_eqb path ["b"]))
       else if String.eqb filterId "F1" then
         mkFuture true (Value (path_eqb path ["p"]))
       else mkFuture true (Value false) |}.

Definition rootTree : Tree :=
  mkTree (PathMap.mk Sensitive
            [("a", mkTreeEntry "blob-a" REGULAR_FILE);
             ("b", mkTreeEntry "blob-b" REGULAR_FILE);
             ("c", mkTreeEntry "tree-c" TREE)])
         "rtree".

(** The inner store: ids are equal exactly when their bytes are; every
    root and every tree id resolves to [rootTree]. *)
#[export] Instance store : BackingStore :=
  {| inner_compareObjectsById := fun a b =>
       Value (if String.eqb a b then Identical else Different);
     inner_getRootTree := fun _ =>
       mkFuture true (Value (mkGetRootTreeResult rootTree "rtree"));
     inner_getTree := fun _ =>
       mkFuture false (Value (mkGetTreeResult rootTree FromNetworkFetch));
     inner_prefetchBlobs := fun _ => mkFuture false (Value tt) |}.

End Scenario.


(* ------------------------------------------------------------------ *)
(** ** Vocabulary of the statements *)

Module CompareSpec.

(** The inner comparison with [Identical] downgraded to [Unknown]. *)
Definition downgraded (res : ObjectComparison) : ObjectComparison :=
  match res with
  | Identical => Unknown
  | _ => res
  end.



End CompareSpec.

Module TreeFilterSpec.
Import FilteredObjectId.

Section Spec.
Context {filter_ : Filter} {codec : Codec}.
Variables (unfilteredTree : Tree) (treePath : RelativePath) (filterId : string).

(** The filter's answer for the child [name]. *)
Definition verdict (name : PathComponent) : Try bool :=
  result (isPathFiltered (path_append treePath name) filterId).

(** The entry a visible child [name] is given. *)
Definition rewritten (name : PathComponent) (entry : TreeEntry) : TreeEntry :=
  mkTreeEntry
    (if TreeEntryType_eqb (getType entry) TREE
     then encode_tree (path_append treePath name) filterId (getHash entry)
     else encode_blob (getHash entry))
    (getType entry).

(** What [collectAll] gathers for one entry. *)
Definition gathered (kv : PathComponent * TreeEntry)
  : Try (RelativePath * bool) :=
  match verdict (fst kv) with
  | Value isFiltered => Value (path_append treePath (fst kv), isFiltered)
  | Exception e => Exception e
  end.

(** The part of the tree the loop has been through, [done], is mirrored
    by the map: the map holds only visible children of [done], and finds
    every visible child of [done] with its rewritten entry. *)
Definition mirrors (done : list (PathComponent * TreeEntry))
  (pathMap : PathMap.t TreeEntry) : Prop :=
  PathMap.getCaseSensitivity pathMap
  = PathMap.getCaseSensitivity (treeEntries unfilteredTree)
  /\ (forall name child, In (name, child) (PathMap.items pathMap) ->
        exists entry, In (name, entry) done /\ verdict name = Value false)
  /\ (forall name entry, In (name, entry) done -> verdict name = Value false ->
        PathMap.find pathMap name = Some (rewritten name entry)).

End Spec.
End TreeFilterSpec.

(* ------------------------------------------------------------------ *)
(** ** FilteredBackingStore: the remaining member functions *)

Module FilteredBackingStoreRest.
Import FilteredObjectId.

Definition Hash20 : Type := string.

Record GetBlobResult : Type := mkGetBlobResult
  { blob : string; blob_origin : Origin }.

Record BlobMetadata : Type := mkBlobMetadata { sha1 : Hash20; size : N }.

Record GetBlobMetaResult : Type := mkGetBlobMetaResult
  { blobMeta : BlobMetadata; blobMeta_origin : Origin }.

(** The further operations of the inner [BackingStore] this file calls.
    [parseRootId] returns a [RootId] or throws. *)
Class BackingStoreRest : Type :=
  { inner_getTreeEntryForObjectId :
      ObjectId -> TreeEntryType -> Future (Try TreeEntry);
    inner_getBlobMetadata : ObjectId -> Future (Try GetBlobMetaResult);
    inner_getBlob : ObjectId -> Future (Try GetBlobResult);
    inner_importManifestForRoot : RootId -> Hash20 -> Future (Try unit);
    inner_parseRootId : string -> Try RootId }.

Section Store.
Context {backingStore_ : BackingStoreRest} {codec : Codec}.



(** [FilteredBackingStore::getBlob] *)
Definition getBlob (id : ObjectId) : outcome (SemiFuture GetBlobResult) :=
  filteredId <- fromObjectId id ;;
  Ok (lift (inner_getBlob (object filteredId))).

(** [FilteredBackingStore::importManifestForRoot]: the manifest is
    unfiltered, so the root id goes to the inner store without its
    filter. *)
Definition importManifestForRoot (rootId : RootId) (manifest : Hash20)
  : outcome (SemiFuture unit) :=
  parsed <- parseFilterIdFromRootId rootId ;;
  let '(parsedRootId, _) := parsed in
  Ok (lift (inner_importManifestForRoot parsedRootId manifest)).

(** [FilteredBackingStore::parseRootId] *)
Definition parseRootId (rootId : string) : outcome RootId :=
  parsed <- parseFilterIdFromRootId (mkRootId rootId) ;;
  let '(startingRootId, filterId) := parsed in
  parsedRootId <- ofTry (inner_parseRootId (value startingRootId)) ;;
  Ok (mkRootId (createFilteredRootId (value parsedRootId) filterId)).

End Store.

(** [FilteredBackingStore::renderRootId] *)
Definition renderRootId (rootId : RootId) : outcome string :=
  parsed <- parseFilterIdFromRootId rootId ;;
  let '(underlyingRootId, filterId) := parsed in
  Ok (createFilteredRootId (value underlyingRootId) filterId).

End FilteredBackingStoreRest.

Module ScenarioRest.
Import FilteredBackingStoreRest.

(** The inner store of the scenarios, for the remaining operations: a blob
    is found under every id, and a root id parses to itself unless it is
    empty. *)
#[export] Instance storeRest : BackingStoreRest :=
  {| inner_getTreeEntryForObjectId := fun id type =>
       mkFuture true (Value (mkTreeEntry id type));
     inner_getBlobMetadata := fun id =>
       mkFuture false
         (Value (mkGetBlobMetaResult (mkBlobMetadata id 0) FromDiskCache));
     inner_getBlob := fun id =>
       mkFuture false (Value (mkGetBlobResult id FromNetworkFetch));
     inner_importManifestForRoot := fun _ _ => mkFuture false (Value tt);
     inner_parseRootId := fun s =>
       if String.eqb s "" then Exception (invalid_argument "empty root id")
       else Value (mkRootId s) |}.

(** An inner store that is offline: every fetch fails and every
    comparison throws. *)
Definition offlineStore : BackingStore :=
  {| inner_compareObjectsById := fun _ _ =>
       Exception (runtime_error "offline");
     inner_getRootTree := fun _ =>
       mkFuture true (Exception (runtime_error "offline"));
     inner_getTree := fun _ =>
       mkFuture false (Exception (runtime_error "offline"));
     inner_prefetchBlobs := fun _ =>
       mkFuture false (Exception (runtime_error "offline")) |}.

End ScenarioRest.

(* ================================================================== *)
(** * Properties *)

(* ------------------------------------------------------------------ *)
(** ** Character storage *)

Lemma append_assoc (a b c : string) : (a ++ b) ++ c = a ++ (b ++ c).
Proof. induction a as [|x a IH]; simpl; [reflexivity | now rewrite IH]. Qed.

Lemma size_succ (x : ascii) (s : string) :
  N.of_nat (String.length (String x s)) = N.of_nat (String.length s) + 1.
Proof. simpl String.length. lia. Qed.

Lemma read_n_0 (mem : string) : read_n mem 0 = Some "".
Proof. destruct mem; reflexivity. Qed.

Lemma skip_n_0 (mem : string) : skip_n mem 0 = Some mem.
Proof. destruct mem; reflexivity. Qed.

Lemma read_n_cons (x : ascii) (mem : string) (n : N) :
  read_n (String x mem) (n + 1) = option_map (String x) (read_n mem n).
Proof.
  simpl. destruct (N.eqb_spec (n + 1) 0) as [E|_]; [lia|].
  now replace (n + 1 - 1) with n by lia.
Qed.

Lemma skip_n_cons (x : ascii) (mem : string) (n : N) :
  skip_n (String x mem) (n + 1) = skip_n mem n.
Proof.
  simpl. destruct (N.eqb_spec (n + 1) 0) as [E|_]; [lia|].
  now replace (n + 1 - 1) with n by lia.
Qed.

(** Reading exactly the length of a prefix yields the prefix. *)
Lemma read_n_prefix (a b : string) :
  read_n (a ++ b) (N.of_nat (String.length a)) = Some a.
Proof.
  induction a as [|x a IH].
  - apply read_n_0.
  - rewrite size_succ. simpl append. rewrite read_n_cons, IH. reflexivity.
Qed.

Lemma skip_n_prefix (a b : string) :
  skip_n (a ++ b) (N.of_nat (String.length a)) = Some b.
Proof.
  induction a as [|x a IH].
  - apply skip_n_0.
  - rewrite size_succ. simpl append. rewrite skip_n_cons. exact IH.
Qed.

(** Reading more than there is finds nothing. *)
Lemma read_n_short (mem : string) (n : N) :
  N.of_nat (String.length mem) < n -> read_n mem n = None.
Proof.
  revert n. induction mem as [|x mem IH]; intros n H.
  - simpl in *. destruct (N.eqb_spec n 0); [lia | reflexivity].
  - rewrite size_succ in H. replace n with (n - 1 + 1) by lia.
    rewrite read_n_cons, IH by lia. reflexivity.
Qed.

Lemma skip_n_short (mem : string) (n : N) :
  N.of_nat (String.length mem) < n -> skip_n mem n = None.
Proof.
  revert n. induction mem as [|x mem IH]; intros n H.
  - simpl in *. destruct (N.eqb_spec n 0); [lia | reflexivity].
  - rewrite size_succ in H. replace n with (n - 1 + 1) by lia.
    rewrite skip_n_cons. apply IH. lia.
Qed.

Lemma read_cstr_storage (s : string) : read_cstr (storage s) = Some (c_str s).
Proof.
  unfold storage. induction s as [|x s IH]; simpl.
  - reflexivity.
  - destruct (Ascii.eqb x NUL); [reflexivity | now rewrite IH].
Qed.

Lemma c_str_id (s : string) : has_NUL s = false -> c_str s = s.
Proof.
  induction s as [|x s IH]; simpl; intros H; [reflexivity|].
  apply orb_false_iff in H as [Hx Hs]. rewrite Hx, IH by assumption.
  reflexivity.
Qed.

Lemma storage_app (a b : string) : storage (a ++ b) = a ++ storage b.
Proof. unfold storage. apply append_assoc. Qed.

Lemma storage_length (s : string) :
  N.of_nat (String.length (storage s)) = N.of_nat (String.length s) + 1.
Proof.
  unfold storage. induction s as [|x s IH]; [reflexivity|].
  simpl append. rewrite !size_succ, IH. reflexivity.
Qed.

(* ------------------------------------------------------------------ *)
(** ** Varints *)

Module VarintFacts.
Import Varint.

(** Or-ing in bits above every set bit of [acc] adds them. *)
Lemma lor_shiftl_add (acc x shift : N) :
  acc < 2 ^ shift -> N.lor acc (N.shiftl x shift) = acc + x * 2 ^ shift.
Proof.
  intros Hacc.
  assert (Hland : N.land acc (N.shiftl x shift) = 0).
  { apply N.bits_inj. intros n. rewrite N.land_spec, N.bits_0.
    destruct (N.ltb_spec n shift) as [Hlt|Hge].
    - rewrite N.shiftl_spec_low by assumption. apply andb_false_r.
    - replace acc with (acc mod 2 ^ shift) by (apply N.mod_small; assumption).
      rewrite N.mod_pow2_bits_high by assumption. reflexivity. }
  rewrite <- N.lxor_lor by assumption.
  rewrite <- N.add_nocarry_lxor by assumption.
  now rewrite N.shiftl_mul_pow2.
Qed.

Lemma land_127 (v : N) : N.land v 127 = v mod 128.
Proof. change 127 with (N.ones 7). rewrite N.land_ones. reflexivity. Qed.

Lemma continuation_byte (v : N) :
  N.lor 128 (N.land v 127) = 128 + v mod 128.
Proof.
  rewrite land_127, N.lor_comm.
  change (N.lor (v mod 128) 128) with (N.lor (v mod 128) (N.shiftl 1 7)).
  rewrite lor_shiftl_add by (apply N.mod_upper_bound; lia).
  change (2 ^ 7) with 128. lia.
Qed.

Lemma land_continuation (lo : N) : lo < 128 -> N.land (128 + lo) 127 = lo.
Proof.
  intros H. rewrite land_127. symmetry. apply (N.mod_unique _ _ 1); lia.
Qed.

Lemma uint8_t_small (n : N) : n < 256 -> N_of_ascii (uint8_t n) = n.
Proof.
  intros H. unfold uint8_t. rewrite N.mod_small by assumption.
  now apply N_ascii_embedding.
Qed.

Lemma pow2_7_succ (k : N) : 2 ^ (7 * (k + 1)) = 128 * 2 ^ (7 * k).
Proof.
  replace (7 * (k + 1)) with (7 + 7 * k) by lia.
  rewrite N.pow_add_r. reflexivity.
Qed.

Lemma encodeVarint_loop_S (room : nat) (v : N) :
  encodeVarint_loop (S room) v
  = if 128 <=? v
    then String (uint8_t (N.lor 128 (N.land v 127)))
                (encodeVarint_loop room (N.shiftr v 7))
    else String (uint8_t v) "".
Proof. reflexivity. Qed.

(** Decoding what the encoder wrote, from any state of the decoder that
    has bits left for it. *)
Lemma decode_encode_loop (room : nat) :
  forall (fuel : nat) (v shift acc : N) (rest : string),
    v < 2 ^ (7 * N.of_nat (S room)) ->
    (S room <= fuel)%nat ->
    acc < 2 ^ shift ->
    acc + v * 2 ^ shift < 2 ^ 64 ->
    tryDecodeVarint_loop fuel shift acc (encodeVarint_loop (S room) v ++ rest)
    = Expect (acc + v * 2 ^ shift, rest).
Proof.
  induction room as [|room IH]; intros fuel v shift acc rest Hv Hfuel Hacc Hfit.
  - change (2 ^ (7 * N.of_nat 1)) with 128 in Hv.
    destruct fuel as [|fuel]; [lia|].
    rewrite encodeVarint_loop_S. destruct (N.leb_spec 128 v) as [Hge|_]; [lia|].
    cbn [append tryDecodeVarint_loop].
    rewrite uint8_t_small by lia. rewrite land_127, (N.mod_small v 128) by lia.
    rewrite lor_shiftl_add by assumption.
    unfold uint64_t. rewrite N.mod_small by assumption.
    destruct (N.ltb_spec v 128); [reflexivity | lia].
  - destruct fuel as [|fuel]; [lia|].
    rewrite encodeVarint_loop_S. destruct (N.leb_spec 128 v) as [Hge|Hlt].
    + cbn [append tryDecodeVarint_loop].
      rewrite continuation_byte.
      assert (Hhi : v / 128 < 2 ^ (7 * N.of_nat (S room))).
      { apply N.Div0.div_lt_upper_bound.
        replace (N.of_nat (S (S room))) with (N.of_nat (S room) + 1) in Hv by lia.
        now rewrite pow2_7_succ in Hv. }
      pose proof (N.mod_upper_bound v 128 ltac:(lia)) as Hlow.
      pose proof (N.div_mod v 128 ltac:(lia)) as Hdm.
      rewrite N.shiftr_div_pow2. change (2 ^ 7) with 128.
      revert Hlow Hdm Hhi.
      generalize (v mod 128) as lo, (v / 128) as hi. intros lo hi Hlow Hdm Hhi.
      rewrite uint8_t_small by lia.
      rewrite land_continuation by assumption.
      rewrite lor_shiftl_add by assumption.
      destruct (N.ltb_spec (128 + lo) 128) as [Habs|_]; [lia|].
      assert (Hpow : 2 ^ (shift + 7) = 2 ^ shift * 128)
        by (rewrite N.pow_add_r; reflexivity).
      assert (Hsum : acc + lo * 2 ^ shift + hi * 2 ^ (shift + 7)
                     = acc + v * 2 ^ shift) by (rewrite Hpow; nia).
      unfold uint64_t. rewrite N.mod_small by nia.
      rewrite IH; [now rewrite Hsum | assumption | lia | rewrite Hpow; nia
                  | now rewrite Hsum].
    + cbn [append tryDecodeVarint_loop].
      rewrite uint8_t_small by lia. rewrite land_127, (N.mod_small v 128) by lia.
      rewrite lor_shiftl_add by assumption.
      unfold uint64_t. rewrite N.mod_small by assumption.
      destruct (N.ltb_spec v 128); [reflexivity | lia].
Qed.

(** [tryDecodeVarint] reads back what [encodeVarint] wrote and leaves the
    range at the byte after it. *)
Lemma tryDecodeVarint_encodeVarint (v : N) (rest : string) :
  tryDecodeVarint (encodeVarint v ++ rest) = Expect (uint64_t v, rest).
Proof.
  unfold tryDecodeVarint, encodeVarint, kMaxVarintLength64.
  assert (Hv : uint64_t v < 2 ^ 64) by (apply N.mod_upper_bound; lia).
  rewrite decode_encode_loop.
  - now rewrite N.mul_1_r, N.add_0_l.
  - eapply N.lt_trans; [exact Hv | reflexivity].
  - lia.
  - reflexivity.
  - now rewrite N.mul_1_r, N.add_0_l.
Qed.

End VarintFacts.

(* ------------------------------------------------------------------ *)
(** ** Filtered root ids *)

Lemma append_empty_r (s : string) : s ++ "" = s.
Proof. induction s as [|x s IH]; simpl; [reflexivity | now rewrite IH]. Qed.

Lemma read_n_all (s : string) : read_n s (N.of_nat (String.length s)) = Some s.
Proof.
  pose proof (read_n_prefix s "") as H. now rewrite append_empty_r in H.
Qed.

Lemma skip_n_all (s : string) : skip_n s (N.of_nat (String.length s)) = Some "".
Proof.
  pose proof (skip_n_prefix s "") as H. now rewrite append_empty_r in H.
Qed.

(** What [parseFilterIdFromRootId] returns on a root id made by
    [createFilteredRootId]: the root id, and the filter id up to its first
    NUL. *)
Lemma parse_create (inner filterId : string) :
  N.of_nat (String.length inner) < 2 ^ 64 ->
  parseFilterIdFromRootId (mkRootId (createFilteredRootId inner filterId))
  = Ok (mkRootId inner, c_str filterId).
Proof.
  intros Hsize. unfold parseFilterIdFromRootId, createFilteredRootId.
  cbn [value append].
  rewrite append_assoc, VarintFacts.tryDecodeVarint_encodeVarint.
  unfold Varint.uint64_t. rewrite N.mod_small by assumption.
  unfold string_of_ptr_len, string_of_cstr.
  rewrite storage_app, read_n_prefix, skip_n_prefix, read_cstr_storage.
  reflexivity.
Qed.

(** The round trip holds for every filter id without a NUL. *)
Lemma parse_create_without_NUL (inner filterId : string) :
  N.of_nat (String.length inner) < 2 ^ 64 ->
  has_NUL filterId = false ->
  parseFilterIdFromRootId (mkRootId (createFilteredRootId inner filterId))
  = Ok (mkRootId inner, filterId).
Proof.
  intros Hsize Hnul. rewrite parse_create by assumption.
  now rewrite c_str_id.
Qed.

(** An undecodable varint is reported with [std::invalid_argument]. *)
Lemma parse_undecodable (rootId : RootId) (e : Varint.DecodeVarintError) :
  Varint.tryDecodeVarint (value rootId) = Varint.Unexpected e ->
  exists msg, parseFilterIdFromRootId rootId = Throw (invalid_argument msg).
Proof.
  intros H. unfold parseFilterIdFromRootId. rewrite H. eexists. reflexivity.
Qed.

(** A decoded length beyond the bytes that follow is not checked: the
    constructors are handed a range that leaves the root id's storage. *)
Lemma parse_truncated (rootId : RootId) (n : N) (rest : string) :
  Varint.tryDecodeVarint (value rootId) = Varint.Expect (n, rest) ->
  N.of_nat (String.length rest) < n ->
  parseFilterIdFromRootId rootId = Undefined.
Proof.
  intros Hdec Hlen. unfold parseFilterIdFromRootId. rewrite Hdec.
  unfold string_of_ptr_len, string_of_cstr.
  destruct (N.eq_dec n (N.of_nat (String.length rest) + 1)) as [->|Hne].
  - rewrite <- storage_length, read_n_all, skip_n_all. reflexivity.
  - rewrite read_n_short; [reflexivity|]. rewrite storage_length. lia.
Qed.

(** C2 (evaluation at the failing input): a filter id with a NUL byte does
    not survive the round trip; [parseFilterIdFromRootId] returns only the
    part before the NUL, here the empty string instead of [NUL "F"]. *)
Theorem root_id_round_trip_cut_at_NUL :
  parseFilterIdFromRootId
    (mkRootId (createFilteredRootId "r" (String NUL "F")))
  = Ok (mkRootId "r", "")
  /\ "" <> String NUL "F".
Proof. split; [reflexivity | discriminate]. Qed.

(** C4 (evaluation at the failing input): on the root id [05 'a'] the
    varint decodes to length 5 with one byte left; no exception is thrown,
    the root id is copied from beyond the end of the input. *)
Theorem truncated_root_id_is_read_out_of_bounds :
  Varint.tryDecodeVarint (String "005" "a") = Varint.Expect (5, "a")
  /\ parseFilterIdFromRootId (mkRootId (String "005" "a")) = Undefined.
Proof. split; reflexivity. Qed.

(* ------------------------------------------------------------------ *)
(** ** The comparison oracle *)

Module CompareFacts.
Import FilteredObjectId FilteredBackingStore CompareSpec.

Section Compare.
Context {backingStore_ : BackingStore} {filter_ : Filter} {codec : Codec}.

Lemma pathAffected_isReady (p1 p2 : RelativePath) (f1 f2 : string) :
  isReady (pathAffectedByFilterChange p1 p2 f1 f2)
  = isReady (isPathFiltered p1 f1) && isReady (isPathFiltered p2 f2).
Proof.
  unfold pathAffectedByFilterChange, thenValue, collectAll, lift; simpl.
  now rewrite andb_true_r.
Qed.

Lemma pathAffected_result (p1 p2 : RelativePath) (f1 f2 : string) :
  result (pathAffectedByFilterChange p1 p2 f1 f2)
  = match result (isPathFiltered p1 f1), result (isPathFiltered p2 f2) with
    | Value v1, Value v2 => Ok (negb (Bool.eqb v1 v2))
    | Exception e, _ | Value _, Exception e =>
        Throw (runtime_error
          ("Unable to determine if paths were affected by filter change: "
             ++ exception_wrapper_what e))
    end.
Proof.
  unfold pathAffectedByFilterChange, thenValue, collectAll, lift; simpl.
  destruct (result (isPathFiltered p1 f1)) as [v1|e1],
           (result (isPathFiltered p2 f2)) as [v2|e2]; simpl; try reflexivity.
  now destruct (Bool.eqb v1 v2).
Qed.

(** The branch of two tree ids under different filters. *)
Lemma compare_changed_filter (one two : ObjectId)
  (p1 p2 : RelativePath) (f1 f2 : string) (o1 o2 : ObjectId) :
  one <> two ->
  decode one = Value (treeFields p1 f1 o1) ->
  decode two = Value (treeFields p2 f2 o2) ->
  f1 <> f2 ->
  compareObjectsById one two
  = if isReady (pathAffectedByFilterChange p1 p2 f1 f2) then
      affected <- result (pathAffectedByFilterChange p1 p2 f1 f2) ;;
      if (affected : bool) then Ok Different
      else res <- ofTry (inner_compareObjectsById o1 o2) ;;
           Ok (downgraded res)
    else Ok Unknown.
Proof.
  intros Hne H1 H2 Hf. unfold compareObjectsById, fromObjectId.
  apply String.eqb_neq in Hne. apply String.eqb_neq in Hf.
  rewrite Hne, H1, H2. cbn -[pathAffectedByFilterChange]. rewrite Hf.
  destruct (isReady (pathAffectedByFilterChange p1 p2 f1 f2)); [|reflexivity].
  unfold get.
  destruct (result (pathAffectedByFilterChange p1 p2 f1 f2)) as [[|]|e|];
    try reflexivity.
  cbn. destruct (inner_compareObjectsById o1 o2) as [[| |]|e]; reflexivity.
Qed.

(** What the oracle does once both ids are decoded. *)
Lemma compare_decoded (one two : ObjectId) (F1 F2 : Fields) :
  one <> two ->
  decode one = Value F1 ->
  decode two = Value F2 ->
  compareObjectsById one two
  = match F1, F2 with
    | blobFields o1, blobFields o2 => ofTry (inner_compareObjectsById o1 o2)
    | treeFields p1 f1 o1, treeFields p2 f2 o2 =>
        if String.eqb f1 f2 then ofTry (inner_compareObjectsById o1 o2)
        else if isReady (pathAffectedByFilterChange p1 p2 f1 f2) then
          affected <- result (pathAffectedByFilterChange p1 p2 f1 f2) ;;
          if (affected : bool) then Ok Different
          else res <- ofTry (inner_compareObjectsById o1 o2) ;;
               Ok (downgraded res)
        else Ok Unknown
    | reservedFields t1 _, reservedFields t2 _ =>
        if t1 =? t2 then Throw (runtime_error "Unknown object type: {}")
        else Throw (invalid_argument
          "Must compare objects of same type. Attempted to compare: {} vs {}")
    | _, _ =>
        Throw (invalid_argument
          "Must compare objects of same type. Attempted to compare: {} vs {}")
    end.
Proof.
  intros Hne H1 H2.
  destruct F1 as [o1|p1 f1 o1|t1 o1], F2 as [o2|p2 f2 o2|t2 o2];
    try (unfold compareObjectsById, fromObjectId;
         apply String.eqb_neq in Hne; rewrite Hne, H1, H2; reflexivity).
  - destruct (String.eqb_spec f1 f2) as [->|Hf].
    + unfold compareObjectsById, fromObjectId.
      apply String.eqb_neq in Hne. rewrite Hne, H1, H2. cbn.
      now rewrite String.eqb_refl.
    + now apply compare_changed_filter.
  - unfold compareObjectsById, fromObjectId.
    apply String.eqb_neq in Hne. rewrite Hne, H1, H2. cbn.
    now destruct (t1 =? t2).
Qed.

(** C8: byte-equal ids compare [Identical], whatever the codec makes of
    them: the result is reached before either id is decoded. *)
Theorem compare_same_bytes (id : ObjectId) :
  compareObjectsById id id = Ok Identical.
Proof. unfold compareObjectsById. now rewrite String.eqb_refl. Qed.

(** C1: two different tree ids under different filters whose two filter
    evaluations are both ready with a value: [Different] when the two
    verdicts disagree, otherwise the inner comparison of the inner ids with
    [Identical] downgraded to [Unknown] (and what the inner comparison
    throws, if it throws). *)
Theorem compare_changed_filter_ready (one two : ObjectId)
  (p1 p2 : RelativePath) (f1 f2 : string) (o1 o2 : ObjectId) (b1 b2 : bool) :
  one <> two ->
  decode one = Value (treeFields p1 f1 o1) ->
  decode two = Value (treeFields p2 f2 o2) ->
  f1 <> f2 ->
  isPathFiltered p1 f1 = mkFuture true (Value b1) ->
  isPathFiltered p2 f2 = mkFuture true (Value b2) ->
  compareObjectsById one two
  = if Bool.eqb b1 b2
    then match inner_compareObjectsById o1 o2 with
         | Value Identical => Ok Unknown
         | Value res => Ok res
         | Exception e => Throw e
         end
    else Ok Different.
Proof.
  intros Hne H1 H2 Hf Hr1 Hr2.
  rewrite (compare_changed_filter one two p1 p2 f1 f2 o1 o2) by assumption.
  rewrite pathAffected_isReady, pathAffected_result, Hr1, Hr2. cbn.
  destruct (Bool.eqb b1 b2); cbn; [|reflexivity].
  destruct (inner_compareObjectsById o1 o2) as [[| |]|e]; reflexivity.
Qed.


(** C10: two different tree ids under different filters never compare
    [Identical]: the oracle answers [Different] or [Unknown], or throws. *)
Theorem compare_changed_filter_never_Identical (one two : ObjectId)
  (p1 p2 : RelativePath) (f1 f2 : string) (o1 o2 : ObjectId) :
  one <> two ->
  decode one = Value (treeFields p1 f1 o1) ->
  decode two = Value (treeFields p2 f2 o2) ->
  f1 <> f2 ->
  compareObjectsById one two <> Ok Identical
  /\ (compareObjectsById one two = Ok Different
      \/ compareObjectsById one two = Ok Unknown
      \/ exists e, compareObjectsById one two = Throw e).
Proof.
  intros Hne H1 H2 Hf.
  rewrite (compare_changed_filter one two p1 p2 f1 f2 o1 o2) by assumption.
  destruct (isReady (pathAffectedByFilterChange p1 p2 f1 f2)).
  - rewrite pathAffected_result.
    destruct (result (isPathFiltered p1 f1)) as [v1|e1],
             (result (isPathFiltered p2 f2)) as [v2|e2]; cbn;
      try (split; [discriminate | right; right; eexists; reflexivity]).
    destruct (Bool.eqb v1 v2); cbn.
    + destruct (inner_compareObjectsById o1 o2) as [[| |]|e]; cbn;
        (split; [discriminate | eauto]).
    + split; [discriminate | auto].
  - split; [discriminate | auto].
Qed.



End Compare.
End CompareFacts.

Module CompareScenarios.
Import FilteredObjectId FilteredBackingStore CompareSpec CompareFacts Scenario.

(** Scenario 4 of the spec: neither filter hides [q], the inner ids are
    the same, and the answer is [Unknown]. *)
Lemma compare_changed_filter_ready_witness :
  let one := encode_tree ["q"] "F1" "t" in
  let two := encode_tree ["q"] "F2" "t" in
  one <> two
  /\ decode one = Value (treeFields ["q"] "F1" "t")
  /\ decode two = Value (treeFields ["q"] "F2" "t")
  /\ "F1" <> "F2"
  /\ isPathFiltered ["q"] "F1" = mkFuture true (Value false)
  /\ isPathFiltered ["q"] "F2" = mkFuture true (Value false)
  /\ compareObjectsById one two = Ok Unknown.
Proof.
  cbv zeta.
  assert (Hne : encode_tree ["q"] "F1" "t" <> encode_tree ["q"] "F2" "t")
    by (apply String.eqb_neq; reflexivity).
  assert (Hf : "F1" <> "F2") by discriminate.
  repeat (split; [first [assumption | reflexivity]|]).
  exact (compare_changed_filter_ready
           (encode_tree ["q"] "F1" "t") (encode_tree ["q"] "F2" "t")
           ["q"] ["q"] "F1" "F2" "t" "t" false false
           Hne eq_refl eq_refl Hf eq_refl eq_refl).
Defined.


(** Scenario 3 of the spec: [F1] hides [p], [F2] does not. *)
Lemma compare_changed_filter_never_Identical_witness :
  let one := encode_tree ["p"] "F1" "t" in
  let two := encode_tree ["p"] "F2" "t" in
  one <> two
  /\ decode one = Value (treeFields ["p"] "F1" "t")
  /\ decode two = Value (treeFields ["p"] "F2" "t")
  /\ "F1" <> "F2"
  /\ compareObjectsById one two <> Ok Identical.
Proof.
  cbv zeta.
  assert (Hne : encode_tree ["p"] "F1" "t" <> encode_tree ["p"] "F2" "t")
    by (apply String.eqb_neq; reflexivity).
  assert (Hf : "F1" <> "F2") by discriminate.
  repeat (split; [first [assumption | reflexivity]|]).
  exact (proj1 (compare_changed_filter_never_Identical
                  (encode_tree ["p"] "F1" "t") (encode_tree ["p"] "F2" "t")
                  ["p"] ["p"] "F1" "F2" "t" "t"
                  Hne eq_refl eq_refl Hf)).
Defined.



End CompareScenarios.

(* ------------------------------------------------------------------ *)
(** ** The tree container *)

Module PathMapFacts.
Import PathMap.

Section Container.
Context {V : Type}.
Implicit Types (l : list (PathComponent * V)) (m : PathMap.t V).

Lemma eqb_iequals (a b : PathComponent) :
  String.eqb a b = true -> iequals a b = true.
Proof.
  intros H. apply String.eqb_eq in H as ->. apply String.eqb_refl.
Qed.

Lemma keyEqual_sym (cs : CaseSensitivity) (a b : PathComponent) :
  keyEqual cs a b = keyEqual cs b a.
Proof. destruct cs; apply String.eqb_sym. Qed.

Lemma keyEqual_exact (cs : CaseSensitivity) (a b : PathComponent) :
  keyEqual cs a b = false -> String.eqb a b = false.
Proof.
  destruct cs; simpl; [|trivial]. intros H.
  destruct (String.eqb a b) eqn:E; [|reflexivity].
  apply eqb_iequals in E. congruence.
Qed.

Lemma find_by_Some eq key l v :
  find_by eq key l = Some v -> exists k, In (k, v) l /\ eq key k = true.
Proof.
  induction l as [|[k w] l IH]; simpl; [discriminate|].
  destruct (eq key k) eqn:E.
  - intros [= ->]. exists k. auto.
  - intros H. destruct (IH H) as (k' & Hin & Hk). exists k'. auto.
Qed.

Lemma find_by_None eq key l :
  (forall k v, In (k, v) l -> eq key k = false) -> find_by eq key l = None.
Proof.
  induction l as [|[k w] l IH]; simpl; intros H; [reflexivity|].
  rewrite (H k w) by auto. apply IH. intros k' v' Hin. apply (H k' v'). auto.
Qed.

Lemma find_by_hit key l v :
  In (key, v) l -> exists w, find_by String.eqb key l = Some w.
Proof.
  induction l as [|[k w] l IH]; simpl; [contradiction|].
  intros [[= -> ->]|Hin].
  - rewrite String.eqb_refl. eauto.
  - destruct (String.eqb key k); eauto.
Qed.

Lemma find_by_middle key v l1 l2 :
  (forall k w, In (k, w) l1 -> String.eqb key k = false) ->
  find_by String.eqb key (l1 ++ (key, v) :: l2) = Some v.
Proof.
  induction l1 as [|[k w] l1 IH]; simpl; intros H.
  - now rewrite String.eqb_refl.
  - rewrite (H k w) by auto. apply IH. intros k' w' Hin. apply (H k' w'). auto.
Qed.

Lemma In_insert_sorted key v l x :
  In x (insert_sorted key v l) <-> x = (key, v) \/ In x l.
Proof.
  induction l as [|[k w] l IH]; simpl.
  - intuition congruence.
  - destruct (String.ltb key k); simpl; [intuition congruence|].
    rewrite IH. intuition congruence.
Qed.

Lemma find_by_insert_sorted_other eq key n v l :
  eq key n = false ->
  find_by eq key (insert_sorted n v l) = find_by eq key l.
Proof.
  intros Hne. induction l as [|[k w] l IH]; simpl.
  - now rewrite Hne.
  - destruct (String.ltb n k); simpl.
    + now rewrite Hne.
    + now rewrite IH.
Qed.

Lemma find_by_insert_sorted_same n v l :
  find_by String.eqb n l = None ->
  find_by String.eqb n (insert_sorted n v l) = Some v.
Proof.
  induction l as [|[k w] l IH]; simpl.
  - now rewrite String.eqb_refl.
  - destruct (String.eqb n k) eqn:E; [discriminate|]. intros H.
    destruct (String.ltb n k); simpl.
    + now rewrite String.eqb_refl.
    + rewrite E. now apply IH.
Qed.

(** A key the map finds is equal, under the map's comparison, to a key
    the map holds. *)
Lemma find_Some m key v :
  find m key = Some v ->
  exists k, In (k, v) (items m) /\ keyEqual (getCaseSensitivity m) key k = true.
Proof.
  unfold find. destruct (find_by String.eqb key (items m)) as [w|] eqn:E.
  - intros [= ->]. destruct (find_by_Some _ _ _ _ E) as (k & Hin & Hk).
    exists k. split; [assumption|].
    destruct (getCaseSensitivity m); simpl; [now apply eqb_iequals | assumption].
  - destruct (getCaseSensitivity m); [|discriminate].
    intros H. destruct (find_by_Some _ _ _ _ H) as (k & Hin & Hk). eauto.
Qed.

Lemma find_None m key :
  (forall k v, In (k, v) (items m) ->
     keyEqual (getCaseSensitivity m) key k = false) ->
  find m key = None.
Proof.
  intros H. unfold find.
  rewrite find_by_None
    by (intros k v Hin; eapply keyEqual_exact, H; eassumption).
  destruct (getCaseSensitivity m) eqn:E; [|reflexivity].
  apply find_by_None. exact H.
Qed.

(** Every key of the map is found. *)
Lemma find_key m key v : In (key, v) (items m) -> exists w, find m key = Some w.
Proof.
  intros Hin. unfold find.
  destruct (find_by_hit _ _ _ Hin) as (w & ->). eauto.
Qed.

Lemma insert_caseSensitivity kv m :
  getCaseSensitivity (insert kv m) = getCaseSensitivity m.
Proof. unfold insert. now destruct (find m (fst kv)). Qed.

Lemma In_insert kv m x :
  In x (items (insert kv m)) -> x = kv \/ In x (items m).
Proof.
  unfold insert. destruct (find m (fst kv)); simpl; [auto|].
  rewrite In_insert_sorted. destruct kv. auto.
Qed.

Lemma In_insert_old kv m x : In x (items m) -> In x (items (insert kv m)).
Proof.
  unfold insert. destruct (find m (fst kv)); simpl; [auto|].
  rewrite In_insert_sorted. auto.
Qed.

Lemma find_insert_same n v m :
  find m n = None -> find (insert (n, v) m) n = Some v.
Proof.
  intros Hnone. unfold insert. simpl fst. rewrite Hnone. simpl snd.
  unfold find in *. simpl.
  destruct (find_by String.eqb n (items m)) eqn:E; [discriminate|].
  now rewrite find_by_insert_sorted_same.
Qed.

Lemma find_insert_other key n v m :
  keyEqual (getCaseSensitivity m) key n = false ->
  find (insert (n, v) m) key = find m key.
Proof.
  intros Hne. unfold insert. simpl fst.
  destruct (find m n); [reflexivity|]. simpl snd.
  unfold find. simpl.
  rewrite find_by_insert_sorted_other by (eapply keyEqual_exact; eassumption).
  destruct (find_by String.eqb key (items m)); [reflexivity|].
  destruct (getCaseSensitivity m); [|reflexivity].
  now apply find_by_insert_sorted_other.
Qed.

(** In a well-formed map the keys before an entry differ from its key. *)
Lemma distinct_keys_before cs l1 n v l2 :
  distinct_keys cs (l1 ++ (n, v) :: l2) = true ->
  forall k w, In (k, w) l1 -> keyEqual cs k n = false.
Proof.
  induction l1 as [|[k0 w0] l1 IH]; simpl; [contradiction|].
  intros H k w Hin. apply andb_true_iff in H as [Hhead Htail].
  destruct Hin as [[= -> ->]|Hin].
  - apply negb_true_iff in Hhead.
    destruct (keyEqual cs k n) eqn:E; [|reflexivity].
    rewrite <- Hhead. symmetry. apply existsb_exists.
    exists (n, v). split; [apply in_or_app; simpl; auto | exact E].
  - eapply IH; eassumption.
Qed.

(** Two entries of a well-formed map with equal keys are one entry. *)
Lemma distinct_keys_unique cs l n v k w :
  distinct_keys cs l = true ->
  In (n, v) l -> In (k, w) l -> keyEqual cs n k = true -> n = k.
Proof.
  induction l as [|[k0 w0] l IH]; simpl; [contradiction|].
  intros H Hn Hk Heq. apply andb_true_iff in H as [Hhead Htail].
  apply negb_true_iff in Hhead.
  assert (Hno : forall k' w', In (k', w') l -> keyEqual cs k0 k' = false).
  { intros k' w' Hin. destruct (keyEqual cs k0 k') eqn:E; [|reflexivity].
    rewrite <- Hhead. symmetry. apply existsb_exists.
    exists (k', w'). auto. }
  destruct Hn as [[= -> ->]|Hn], Hk as [[= -> ->]|Hk].
  - reflexivity.
  - rewrite (Hno _ _ Hk) in Heq. discriminate.
  - rewrite keyEqual_sym, (Hno _ _ Hn) in Heq. discriminate.
  - now apply IH.
Qed.

(** A well-formed map finds each of its entries under its own key. *)
Lemma find_entry m key v :
  wf m = true -> In (key, v) (items m) -> find m key = Some v.
Proof.
  unfold wf. intros Hwf Hin.
  destruct (in_split _ _ Hin) as (l1 & l2 & Hsplit).
  unfold find. rewrite Hsplit in *.
  rewrite find_by_middle; [reflexivity|].
  intros k w Hk. rewrite String.eqb_sym.
  eapply keyEqual_exact, distinct_keys_before; eassumption.
Qed.

End Container.
End PathMapFacts.

(* ------------------------------------------------------------------ *)
(** ** The tree-filter transform *)

Module TreeFilterFacts.
Import FilteredObjectId FilteredBackingStore PathMapFacts TreeFilterSpec.

Section Transform.
Context {backingStore_ : BackingStore} {filter_ : Filter} {codec : Codec}.
Variables (unfilteredTree : Tree) (treePath : RelativePath) (filterId : string).

Let inner : PathMap.t TreeEntry := treeEntries unfilteredTree.
Let cs : CaseSensitivity := PathMap.getCaseSensitivity inner.

Local Abbreviation verdict := (TreeFilterSpec.verdict treePath filterId).
Local Abbreviation rewritten := (TreeFilterSpec.rewritten treePath filterId).
Local Abbreviation gathered := (TreeFilterSpec.gathered treePath filterId).
Local Abbreviation mirrors :=
  (TreeFilterSpec.mirrors unfilteredTree treePath filterId).

Lemma basename_path_append (p : RelativePath) (name : PathComponent) :
  basename (path_append p name) = name.
Proof. unfold basename, path_append. apply last_last. Qed.

Lemma collect_gathered (l : list (PathComponent * TreeEntry)) :
  collectTries
    (map result
       (map (fun '(path, entry) =>
               thenValue
                 (lift (isPathFiltered (path_append treePath path) filterId))
                 (fun isFiltered : bool =>
                    Ok (path_append treePath path, isFiltered))) l))
  = Ok (map gathered l).
Proof.
  induction l as [|[name entry] l IH]; [reflexivity|].
  cbn [map]. unfold TreeFilterSpec.gathered at 1, TreeFilterSpec.verdict. cbn [fst thenValue lift result].
  destruct (result (isPathFiltered (path_append treePath name) filterId));
    cbn [ofTry bind collectTries]; rewrite IH; reflexivity.
Qed.

Lemma filterImpl_result :
  result (filterImpl unfilteredTree treePath filterId)
  = filterImpl_loop unfilteredTree filterId
      (map gathered (PathMap.items inner)) (PathMap.empty cs).
Proof.
  unfold filterImpl. cbv zeta. unfold collectAll.
  unfold thenValue at 1. cbn [result].
  rewrite collect_gathered. reflexivity.
Qed.

(** One turn of the loop. *)
Lemma filterImpl_loop_step (name : PathComponent) (entry : TreeEntry)
  (l : list (PathComponent * TreeEntry)) (pathMap : PathMap.t TreeEntry) :
  filterImpl_loop unfilteredTree filterId (map gathered ((name, entry) :: l))
    pathMap
  = match verdict name with
    | Value false =>
        found <- deref (PathMap.find inner name) ;;
        filterImpl_loop unfilteredTree filterId (map gathered l)
          (PathMap.insert (name, rewritten name found) pathMap)
    | _ => filterImpl_loop unfilteredTree filterId (map gathered l) pathMap
    end.
Proof.
  cbn [map filterImpl_loop]. unfold TreeFilterSpec.gathered at 1. cbn [fst].
  destruct (verdict name) as [[|]|e]; cbn [negb]; try reflexivity.
  rewrite basename_path_append. reflexivity.
Qed.

(** The loop never fails on the entries of the tree it reads, it keeps
    the case sensitivity, and whatever it adds is the rewritten entry of a
    visible child. *)
Lemma filterImpl_loop_sound (l : list (PathComponent * TreeEntry)) :
  forall pathMap,
    (forall name entry, In (name, entry) l -> In (name, entry) (PathMap.items inner)) ->
    exists out,
      filterImpl_loop unfilteredTree filterId (map gathered l) pathMap = Ok out
      /\ PathMap.getCaseSensitivity out = PathMap.getCaseSensitivity pathMap
      /\ forall name child, In (name, child) (PathMap.items out) ->
           In (name, child) (PathMap.items pathMap)
           \/ exists entry, PathMap.find inner name = Some entry
                            /\ verdict name = Value false
                            /\ child = rewritten name entry.
Proof.
  induction l as [|[name entry] l IH]; intros pathMap Hsub.
  - exists pathMap. cbn. auto.
  - rewrite filterImpl_loop_step.
    assert (Hsub' : forall n e, In (n, e) l -> In (n, e) (PathMap.items inner))
      by (intros n e Hin; apply Hsub; right; exact Hin).
    destruct (verdict name) as [[|]|e] eqn:Hverdict; try (apply IH; exact Hsub').
    destruct (find_key inner name entry (Hsub _ _ (or_introl eq_refl)))
      as (found & Hfound).
    rewrite Hfound. cbn [deref bind].
    destruct (IH (PathMap.insert (name, rewritten name found) pathMap) Hsub')
      as (out & Hout & Hcs & Hitems).
    exists out. split; [exact Hout|]. split.
    + now rewrite Hcs, insert_caseSensitivity.
    + intros n child Hin. destruct (Hitems n child Hin) as [Hold|Hnew]; [|auto].
      apply In_insert in Hold as [[= -> ->]|Hold]; [|auto].
      right. exists found. auto.
Qed.

Lemma filterImpl_loop_mirrors (l : list (PathComponent * TreeEntry)) :
  forall done pathMap out,
    PathMap.wf inner = true ->
    PathMap.items inner = (done ++ l)%list ->
    mirrors done pathMap ->
    filterImpl_loop unfilteredTree filterId (map gathered l) pathMap = Ok out ->
    mirrors (done ++ l)%list out.
Proof.
  induction l as [|[name entry] l IH]; intros done pathMap out Hwf Hitems Hinv Hrun.
  - cbn in Hrun. injection Hrun as <-. now rewrite app_nil_r.
  - rewrite filterImpl_loop_step in Hrun.
    assert (Hitems' : PathMap.items inner = ((done ++ [(name, entry)]) ++ l)%list)
      by (rewrite <- app_assoc; exact Hitems).
    replace (done ++ (name, entry) :: l)%list
      with ((done ++ [(name, entry)]) ++ l)%list by (now rewrite <- app_assoc).
    destruct Hinv as (Hcs & Honly & Hall).
    assert (Hskip : verdict name <> Value false ->
                    mirrors (done ++ [(name, entry)]) pathMap).
    { intros Hv. split; [exact Hcs|]. split.
      - intros n child Hin. destruct (Honly n child Hin) as (e & He & Hve).
        exists e. split; [apply in_or_app; auto | exact Hve].
      - intros n e Hin Hve. apply in_app_or in Hin as [Hin|[[= <- <-]|[]]].
        + now apply Hall.
        + contradiction. }
    destruct (verdict name) as [[|]|e] eqn:Hverdict;
      try (eapply IH; [exact Hwf | exact Hitems' | apply Hskip; discriminate
                      | exact Hrun]).
    assert (Hentry : PathMap.find inner name = Some entry).
    { apply find_entry; [exact Hwf|]. rewrite Hitems.
      apply in_or_app. right. left. reflexivity. }
    rewrite Hentry in Hrun. cbn [deref bind] in Hrun.
    assert (Hfresh : forall k w, In (k, w) done -> PathMap.keyEqual cs k name = false).
    { unfold PathMap.wf in Hwf. fold inner cs in Hwf. rewrite Hitems in Hwf.
      exact (distinct_keys_before cs done name entry l Hwf). }
    assert (Hnone : PathMap.find pathMap name = None).
    { apply find_None. intros k v Hin. rewrite Hcs, keyEqual_sym.
      destruct (Honly k v Hin) as (e & He & _). eapply Hfresh; eassumption. }
    eapply IH; [exact Hwf | exact Hitems' | | exact Hrun].
    split; [now rewrite insert_caseSensitivity|]. split.
    + intros n child Hin. apply In_insert in Hin as [[= -> ->]|Hin].
      * exists entry. split; [apply in_or_app; simpl; auto | exact Hverdict].
      * destruct (Honly n child Hin) as (e & He & Hve).
        exists e. split; [apply in_or_app; auto | exact Hve].
    + intros n e Hin Hve. apply in_app_or in Hin as [Hin|[[= <- <-]|[]]].
      * rewrite find_insert_other by (rewrite Hcs; eapply Hfresh; eassumption).
        now apply Hall.
      * now apply find_insert_same.
Qed.

(** Every entry of the transform's result is the rewritten entry of a
    child the inner tree finds under the same name. *)
Lemma filterImpl_children :
  exists pathMap,
    result (filterImpl unfilteredTree treePath filterId) = Ok pathMap
    /\ PathMap.getCaseSensitivity pathMap = cs
    /\ forall name child, In (name, child) (PathMap.items pathMap) ->
         exists entry, PathMap.find inner name = Some entry
                       /\ child = rewritten name entry.
Proof.
  rewrite filterImpl_result.
  destruct (filterImpl_loop_sound (PathMap.items inner) (PathMap.empty cs))
    as (out & Hout & Hcs & Hitems); [auto|].
  exists out. split; [exact Hout|]. split; [exact Hcs|].
  intros name child Hin.
  destruct (Hitems name child Hin) as [[]|(entry & Hfind & _ & Hchild)]; eauto.
Qed.

(** Every visible child of a well-formed inner tree is found in the
    transform's result, with its rewritten entry. *)
Lemma filterImpl_visible (pathMap : PathMap.t TreeEntry) :
  PathMap.wf inner = true ->
  result (filterImpl unfilteredTree treePath filterId) = Ok pathMap ->
  forall name entry,
    In (name, entry) (PathMap.items inner) ->
    verdict name = Value false ->
    PathMap.find pathMap name = Some (rewritten name entry).
Proof.
  intros Hwf Hout. rewrite filterImpl_result in Hout.
  assert (Hstart : mirrors [] (PathMap.empty cs))
    by (split; [reflexivity | split; intros ? ? []]).
  destruct (filterImpl_loop_mirrors (PathMap.items inner) [] (PathMap.empty cs)
              pathMap Hwf eq_refl Hstart Hout) as (_ & _ & Hall).
  exact Hall.
Qed.

(** C6: a filter evaluation that fails drops its own entry only.  The
    transform of a well-formed tree completes with a map; a child whose
    evaluation failed, or said hidden, is not in it, and every child whose
    evaluation said visible is in it with its rewritten entry. *)
Theorem filterImpl_failure_is_local :
  PathMap.wf (treeEntries unfilteredTree) = true ->
  exists pathMap,
    result (filterImpl unfilteredTree treePath filterId) = Ok pathMap
    /\ PathMap.getCaseSensitivity pathMap
       = PathMap.getCaseSensitivity (treeEntries unfilteredTree)
    /\ forall name entry,
         In (name, entry) (PathMap.items (treeEntries unfilteredTree)) ->
         match result (isPathFiltered (path_append treePath name) filterId) with
         | Exception _ => PathMap.find pathMap name = None
         | Value true => PathMap.find pathMap name = None
         | Value false =>
             PathMap.find pathMap name
             = Some (mkTreeEntry
                       (if TreeEntryType_eqb (getType entry) TREE
                        then encode_tree (path_append treePath name) filterId
                               (getHash entry)
                        else encode_blob (getHash entry))
                       (getType entry))
         end.
Proof.
  intros Hwf. fold inner in Hwf |- *. fold cs.
  destruct filterImpl_children as (out & Hout & Hcs & _).
  exists out. split; [exact Hout|]. split; [exact Hcs|].
  rewrite filterImpl_result in Hout.
  assert (Hstart : mirrors [] (PathMap.empty cs))
    by (split; [reflexivity | split; intros ? ? []]).
  destruct (filterImpl_loop_mirrors (PathMap.items inner) [] (PathMap.empty cs)
              out Hwf eq_refl Hstart Hout) as (_ & Honly & Hall).
  cbn [app] in Honly, Hall.
  assert (Habsent : forall name entry, In (name, entry) (PathMap.items inner) ->
                    verdict name <> Value false -> PathMap.find out name = None).
  { intros name entry Hin Hv.
    destruct (PathMap.find out name) as [child|] eqn:Hfind; [|reflexivity].
    destruct (find_Some _ _ _ Hfind) as (k & Hk & Heq).
    destruct (Honly k child Hk) as (e & He & Hve).
    rewrite Hcs in Heq.
    rewrite (distinct_keys_unique cs _ name entry k e Hwf Hin He Heq) in Hv.
    contradiction. }
  intros name entry Hin. fold (verdict name).
  destruct (verdict name) as [[|]|e] eqn:Hv.
  - eapply Habsent; [exact Hin | rewrite Hv; discriminate].
  - apply (Hall name entry Hin Hv).
  - eapply Habsent; [exact Hin | rewrite Hv; discriminate].
Qed.

End Transform.

Section Children.
Context {backingStore_ : BackingStore} {filter_ : Filter} {codec : Codec}.

Lemma TreeEntryType_eqb_TREE (t : TreeEntryType) :
  TreeEntryType_eqb t TREE = true <-> t = TREE.
Proof. destruct t; simpl; split; intros H; congruence. Qed.

(** The entry a visible child is given, read as the claim states it. *)
Lemma rewritten_spec (treePath : RelativePath) (filterId : string)
  (name : PathComponent) (entry child : TreeEntry) :
  child = rewritten treePath filterId name entry ->
  getType child = getType entry
  /\ (getType entry = TREE ->
        getHash child
        = encode_tree (path_append treePath name) filterId (getHash entry))
  /\ (getType entry <> TREE -> getHash child = encode_blob (getHash entry)).
Proof.
  intros ->. unfold rewritten. cbn [getType getHash].
  split; [reflexivity|].
  destruct (TreeEntryType_eqb (getType entry) TREE) eqn:E.
  - apply TreeEntryType_eqb_TREE in E. split; [reflexivity | contradiction].
  - split; [|reflexivity]. intros H. apply TreeEntryType_eqb_TREE in H.
    congruence.
Qed.

(** C5: in the tree [getRootTree] and [getTree] return, every child is a
    child of the inner tree of the same kind; a child of kind TREE carries
    [encode_tree (parent path + name) filterId innerId], [filterId] being
    the filter of the id of the returned tree, and a child of any other
    kind carries [encode_blob innerId].  And the children are there: every
    child of a well-formed inner tree that the filter reports visible is
    found in the returned tree, with that id and its kind. *)
Theorem children_carry_the_parent_filter :
  (forall (rootId parsedRootId : RootId) (filterId : string)
          (rootTreeResult : GetRootTreeResult),
     parseFilterIdFromRootId rootId = Ok (parsedRootId, filterId) ->
     result (inner_getRootTree parsedRootId) = Value rootTreeResult ->
     exists fut res,
       getRootTree rootId = Ok fut
       /\ result fut = Ok res
       /\ getHash_tree (tree res)
          = encode_tree [] filterId (treeId rootTreeResult)
       /\ (forall name child,
            In (name, child) (PathMap.items (treeEntries (tree res))) ->
            exists entry,
              PathMap.find (treeEntries (tree rootTreeResult)) name = Some entry
              /\ getType child = getType entry
              /\ (getType entry = TREE ->
                    getHash child
                    = encode_tree (path_append [] name) filterId (getHash entry))
              /\ (getType entry <> TREE ->
                    getHash child = encode_blob (getHash entry)))
       /\ (PathMap.wf (treeEntries (tree rootTreeResult)) = true ->
           forall name entry,
             In (name, entry)
                (PathMap.items (treeEntries (tree rootTreeResult))) ->
             result (isPathFiltered (path_append [] name) filterId)
             = Value false ->
             PathMap.find (treeEntries (tree res)) name
             = Some (mkTreeEntry
                       (if TreeEntryType_eqb (getType entry) TREE
                        then encode_tree (path_append [] name) filterId
                               (getHash entry)
                        else encode_blob (getHash entry))
                       (getType entry))))
  /\ (forall (id : ObjectId) (path : RelativePath) (filterId : string)
             (object : ObjectId) (treeResult : GetTreeResult),
        decode id = Value (treeFields path filterId object) ->
        result (inner_getTree object) = Value treeResult ->
        exists fut res,
          getTree id = Ok fut
          /\ result fut = Ok res
          /\ getHash_tree (tree_of res) = id
          /\ (forall name child,
               In (name, child) (PathMap.items (treeEntries (tree_of res))) ->
               exists entry,
                 PathMap.find (treeEntries (tree_of treeResult)) name = Some entry
                 /\ getType child = getType entry
                 /\ (getType entry = TREE ->
                       getHash child
                       = encode_tree (path_append path name) filterId
                           (getHash entry))
                 /\ (getType entry <> TREE ->
                       getHash child = encode_blob (getHash entry)))
          /\ (PathMap.wf (treeEntries (tree_of treeResult)) = true ->
              forall name entry,
                In (name, entry)
                   (PathMap.items (treeEntries (tree_of treeResult))) ->
                result (isPathFiltered (path_append path name) filterId)
                = Value false ->
                PathMap.find (treeEntries (tree_of res)) name
                = Some (mkTreeEntry
                          (if TreeEntryType_eqb (getType entry) TREE
                           then encode_tree (path_append path name) filterId
                                  (getHash entry)
                           else encode_blob (getHash entry))
                          (getType entry)))).
Proof.
  split.
  - intros rootId parsedRootId filterId rootTreeResult Hparse Hinner.
    destruct (filterImpl_children (tree rootTreeResult) [] filterId)
      as (pathMap & Hres & _ & Hchildren).
    unfold getRootTree. rewrite Hparse. cbn [bind].
    eexists. eexists. split; [reflexivity|].
    unfold thenFuture, lift. cbn [result]. rewrite Hinner. cbn [ofTry result].
    unfold thenValue at 1. cbn [result]. rewrite Hres. cbn [bind].
    split; [reflexivity|]. split; [reflexivity|].
    cbn [tree treeEntries]. split.
    + intros name child Hin.
      destruct (Hchildren name child Hin) as (entry & Hfind & Hchild).
      exists entry. split; [exact Hfind|]. now apply rewritten_spec.
    + intros Hwf name entry Hin Hvisible.
      exact (filterImpl_visible (tree rootTreeResult) [] filterId pathMap
               Hwf Hres name entry Hin Hvisible).
  - intros id path filterId object treeResult Hdecode Hinner.
    destruct (filterImpl_children (tree_of treeResult) path filterId)
      as (pathMap & Hres & _ & Hchildren).
    unfold getTree, fromObjectId. rewrite Hdecode. cbn [ofTry bind].
    eexists. eexists. split; [reflexivity|].
    unfold deferValue, lift. cbn [result FilteredObjectId.object fields f_object].
    rewrite Hinner. cbn [ofTry bind].
    cbn [FilteredObjectId.path FilteredObjectId.filter fields f_path f_filter].
    unfold thenValue at 1. cbn [result]. rewrite Hres. cbn [bind getValue].
    split; [reflexivity|]. split; [reflexivity|].
    cbn [tree_of treeEntries]. split.
    + intros name child Hin.
      destruct (Hchildren name child Hin) as (entry & Hfind & Hchild).
      exists entry. split; [exact Hfind|]. now apply rewritten_spec.
    + intros Hwf name entry Hin Hvisible.
      exact (filterImpl_visible (tree_of treeResult) path filterId pathMap
               Hwf Hres name entry Hin Hvisible).
Qed.

End Children.
End TreeFilterFacts.

Module TreeScenarios.
Import FilteredObjectId FilteredBackingStore TreeFilterFacts Scenario.

(** Under ["flaky"] the evaluation of [b] fails: [b] is dropped, [a] and
    [c] are kept. *)
Lemma filterImpl_failure_is_local_witness :
  PathMap.wf (treeEntries rootTree) = true
  /\ exists pathMap,
       result (filterImpl rootTree [] "flaky") = Ok pathMap
       /\ PathMap.find pathMap "b" = None
       /\ PathMap.find pathMap "a"
          = Some (mkTreeEntry (encode_blob "blob-a") REGULAR_FILE)
       /\ PathMap.find pathMap "c"
          = Some (mkTreeEntry (encode_tree ["c"] "flaky" "tree-c") TREE).
Proof.
  split; [reflexivity|].
  destruct (filterImpl_failure_is_local rootTree [] "flaky" eq_refl)
    as (pathMap & Hres & _ & Hentries).
  exists pathMap. split; [exact Hres|]. split; [|split].
  - exact (Hentries "b" (mkTreeEntry "blob-b" REGULAR_FILE)
             (or_intror (or_introl eq_refl))).
  - exact (Hentries "a" (mkTreeEntry "blob-a" REGULAR_FILE)
             (or_introl eq_refl)).
  - exact (Hentries "c" (mkTreeEntry "tree-c" TREE)
             (or_intror (or_intror (or_introl eq_refl)))).
Defined.

(** Scenario 1 of the spec, and the tree at [d] under the same filter:
    under ["F"] the root tree keeps [a] and [c] with their filtered ids;
    the tree at [d] keeps [b] too, for ["F"] hides [b] at the root only. *)
Lemma children_carry_the_parent_filter_witness :
  parseFilterIdFromRootId (mkRootId (createFilteredRootId "r" "F"))
  = Ok (mkRootId "r", "F")
  /\ result (inner_getRootTree (mkRootId "r"))
     = Value (mkGetRootTreeResult rootTree "rtree")
  /\ decode (encode_tree ["d"] "F" "t") = Value (treeFields ["d"] "F" "t")
  /\ result (inner_getTree "t")
     = Value (mkGetTreeResult rootTree FromNetworkFetch)
  /\ PathMap.wf (treeEntries rootTree) = true
  /\ (exists fut res,
        getRootTree (mkRootId (createFilteredRootId "r" "F")) = Ok fut
        /\ result fut = Ok res
        /\ getHash_tree (tree res) = encode_tree [] "F" "rtree"
        /\ PathMap.find (treeEntries (tree res)) "a"
           = Some (mkTreeEntry (encode_blob "blob-a") REGULAR_FILE)
        /\ PathMap.find (treeEntries (tree res)) "c"
           = Some (mkTreeEntry (encode_tree ["c"] "F" "tree-c") TREE)
        /\ forall name child,
             In (name, child) (PathMap.items (treeEntries (tree res))) ->
             exists entry,
               PathMap.find (treeEntries rootTree) name = Some entry
               /\ getType child = getType entry)
  /\ (exists fut res,
        getTree (encode_tree ["d"] "F" "t") = Ok fut
        /\ result fut = Ok res
        /\ getHash_tree (tree_of res) = encode_tree ["d"] "F" "t"
        /\ PathMap.find (treeEntries (tree_of res)) "b"
           = Some (mkTreeEntry (encode_blob "blob-b") REGULAR_FILE)
        /\ PathMap.find (treeEntries (tree_of res)) "c"
           = Some (mkTreeEntry (encode_tree ["d"; "c"] "F" "tree-c") TREE)).
Proof.
  assert (Hparse : parseFilterIdFromRootId
                     (mkRootId (createFilteredRootId "r" "F"))
                   = Ok (mkRootId "r", "F")) by reflexivity.
  assert (Hdecode : decode (encode_tree ["d"] "F" "t")
                    = Value (treeFields ["d"] "F" "t")) by reflexivity.
  assert (Hwf : PathMap.wf (treeEntries rootTree) = true) by reflexivity.
  repeat (split; [reflexivity|]). split.
  - destruct (proj1 (@children_carry_the_parent_filter store filter codec)
                (mkRootId (createFilteredRootId "r" "F")) (mkRootId "r") "F"
                (mkGetRootTreeResult rootTree "rtree") Hparse eq_refl)
      as (fut & res & Hfut & Hres & Hid & Hsound & Hvisible).
    exists fut, res.
    split; [exact Hfut|]. split; [exact Hres|]. split; [exact Hid|].
    split; [|split].
    + exact (Hvisible Hwf "a" (mkTreeEntry "blob-a" REGULAR_FILE)
               (or_introl eq_refl) eq_refl).
    + exact (Hvisible Hwf "c" (mkTreeEntry "tree-c" TREE)
               (or_intror (or_intror (or_introl eq_refl))) eq_refl).
    + intros name child Hin.
      destruct (Hsound name child Hin) as (entry & Hfind & Htype & _).
      exists entry. split; [exact Hfind | exact Htype].
  - destruct (proj2 (@children_carry_the_parent_filter store filter codec)
                (encode_tree ["d"] "F" "t") ["d"] "F" "t"
                (mkGetTreeResult rootTree FromNetworkFetch) Hdecode eq_refl)
      as (fut & res & Hfut & Hres & Hid & _ & Hvisible).
    exists fut, res.
    split; [exact Hfut|]. split; [exact Hres|]. split; [exact Hid|]. split.
    + exact (Hvisible Hwf "b" (mkTreeEntry "blob-b" REGULAR_FILE)
               (or_intror (or_introl eq_refl)) eq_refl).
    + exact (Hvisible Hwf "c" (mkTreeEntry "tree-c" TREE)
               (or_intror (or_intror (or_introl eq_refl))) eq_refl).
Defined.

End TreeScenarios.

(* ------------------------------------------------------------------ *)
(** ** Prefetching *)

Module PrefetchFacts.
Import FilteredObjectId FilteredBackingStore.

Section Prefetch.
Context {backingStore_ : BackingStore} {filter_ : Filter} {codec : Codec}.

(** An empty batch is forwarded as it is. *)
Lemma prefetchBlobs_nil :
  prefetchBlobs [] = Ok (lift (inner_prefetchBlobs [])).
Proof. reflexivity. Qed.

(** The first id that decodes is written through [begin()] of a vector
    that holds no element. *)
Lemma prefetchBlobs_cons (id : ObjectId) (ids : list ObjectId) (F : Fields) :
  decode id = Value F -> prefetchBlobs (id :: ids) = Undefined.
Proof.
  intros H. unfold prefetchBlobs, prefetchBlobs_batch, fromObjectId.
  cbn [std_transform]. rewrite H. reflexivity.
Qed.

End Prefetch.
End PrefetchFacts.

Module PrefetchScenarios.
Import FilteredObjectId FilteredBackingStore Scenario.

(** C3 (evaluation at the failing input): for the batch of the one blob id
    [encode_blob "x"] nothing is forwarded; the inner id is assigned
    through the begin iterator of the empty [nonFilteredIds]. *)
Theorem prefetchBlobs_writes_into_empty_vector :
  decode (encode_blob "x") = Value (blobFields "x")
  /\ prefetchBlobs_batch [encode_blob "x"] = Undefined
  /\ prefetchBlobs [encode_blob "x"] = Undefined.
Proof. repeat split. Qed.

End PrefetchScenarios.

(* ------------------------------------------------------------------ *)
(** ** More on filtered root ids *)

Module RootIdFacts.
Import FilteredBackingStoreRest.

Lemma uint64_t_bound (n : N) : Varint.uint64_t n < 2 ^ 64.
Proof. unfold Varint.uint64_t. apply N.mod_upper_bound. discriminate. Qed.

(** A decoded varint fits 64 bits. *)
Lemma tryDecodeVarint_loop_bound (fuel : nat) :
  forall shift val p n rest,
    Varint.tryDecodeVarint_loop fuel shift val p = Varint.Expect (n, rest) ->
    n < 2 ^ 64.
Proof.
  induction fuel as [|fuel IH]; intros shift val p n rest; cbn; [discriminate|].
  destruct p as [|c p]; [discriminate|].
  destruct (N_of_ascii c <? 128).
  - intros [= <- _]. apply uint64_t_bound.
  - apply IH.
Qed.

Lemma tryDecodeVarint_bound (data : string) (n : N) (rest : string) :
  Varint.tryDecodeVarint data = Varint.Expect (n, rest) -> n < 2 ^ 64.
Proof. apply tryDecodeVarint_loop_bound. Qed.

Lemma read_n_length (mem : string) :
  forall n s, read_n mem n = Some s -> N.of_nat (String.length s) = n.
Proof.
  induction mem as [|c mem IH]; intros n s; simpl;
    destruct (N.eqb_spec n 0) as [->|Hn]; try (intros [= <-]; reflexivity);
    try discriminate.
  destruct (read_n mem (n - 1)) as [s'|] eqn:E; [|discriminate].
  intros [= <-]. rewrite size_succ, (IH _ _ E). lia.
Qed.

(** Reading and skipping the same count cuts the memory in two. *)
Lemma read_skip_split (mem : string) :
  forall n s t, read_n mem n = Some s -> skip_n mem n = Some t -> mem = s ++ t.
Proof.
  induction mem as [|c mem IH]; intros n s t; simpl;
    destruct (N.eqb_spec n 0) as [->|Hn];
    try (intros [= <-] [= <-]; reflexivity); try discriminate.
  destruct (read_n mem (n - 1)) as [s'|] eqn:E; [|discriminate].
  intros [= <-] Hskip. simpl. now rewrite (IH _ _ _ E Hskip).
Qed.

(** A prefix of a range ends before the terminating NUL, unless nothing
    is left behind it. *)
Lemma storage_split (rest s mem : string) :
  storage rest = s ++ mem -> mem <> "" ->
  exists tail, rest = s ++ tail /\ mem = storage tail.
Proof.
  revert rest. induction s as [|c s IH]; intros rest H Hmem.
  - exists rest. split; [reflexivity | now rewrite H].
  - destruct rest as [|d rest].
    + unfold storage in H. simpl in H. injection H as _ H.
      destruct s; [simpl in H; congruence | discriminate].
    + unfold storage in H. simpl in H. injection H as -> H.
      destruct (IH rest H Hmem) as (tail & -> & ->). exists tail. auto.
Qed.

Lemma split_at (rest : string) :
  forall n, n <= N.of_nat (String.length rest) ->
  exists root tail, rest = root ++ tail /\ N.of_nat (String.length root) = n.
Proof.
  induction rest as [|c rest IH]; intros n Hn.
  - exists "", "". split; [reflexivity|]. simpl in *. lia.
  - destruct (N.eq_dec n 0) as [->|Hpos].
    + exists "", (String c rest). auto.
    + rewrite size_succ in Hn.
      destruct (IH (n - 1) ltac:(lia)) as (root & tail & -> & Hlen).
      exists (String c root), tail. split; [reflexivity|].
      rewrite size_succ. lia.
Qed.

Lemma c_str_has_no_NUL (s : string) : has_NUL (c_str s) = false.
Proof.
  induction s as [|c s IH]; simpl; [reflexivity|].
  destruct (Ascii.eqb c NUL) eqn:E; [reflexivity|]. simpl. now rewrite E.
Qed.

(** The root id and filter id of a well-formed input. *)
Lemma parse_split (rootId : RootId) (root tail : string) :
  Varint.tryDecodeVarint (value rootId)
  = Varint.Expect (N.of_nat (String.length root), root ++ tail) ->
  parseFilterIdFromRootId rootId = Ok (mkRootId root, c_str tail).
Proof.
  intros H. unfold parseFilterIdFromRootId. rewrite H.
  unfold string_of_ptr_len, string_of_cstr.
  rewrite storage_app, read_n_prefix, skip_n_prefix, read_cstr_storage.
  reflexivity.
Qed.

(** Whatever [parseFilterIdFromRootId] returns was a well-formed input. *)
Lemma parse_Ok_inv (rootId root : RootId) (filterId : string) :
  parseFilterIdFromRootId rootId = Ok (root, filterId) ->
  exists tail,
    Varint.tryDecodeVarint (value rootId)
    = Varint.Expect (N.of_nat (String.length (value root)), value root ++ tail)
    /\ filterId = c_str tail.
Proof.
  unfold parseFilterIdFromRootId.
  destruct (Varint.tryDecodeVarint (value rootId)) as [[n rest]|e];
    [|discriminate].
  unfold string_of_ptr_len, string_of_cstr.
  destruct (read_n (storage rest) n) as [s|] eqn:Hread; [|discriminate].
  destruct (skip_n (storage rest) n) as [mem|] eqn:Hskip; [|discriminate].
  destruct (read_cstr mem) as [f|] eqn:Hcstr; [|discriminate].
  cbn. intros [= <- <-]. cbn [value].
  assert (Hmem : mem <> "") by (intros ->; discriminate).
  destruct (storage_split rest s mem (read_skip_split _ _ _ _ Hread Hskip) Hmem)
    as (tail & -> & ->).
  exists tail. rewrite (read_n_length _ _ _ Hread).
  rewrite read_cstr_storage in Hcstr. injection Hcstr as <-. auto.
Qed.

(** X1: the root id round trip.  For an inner root id of a size that fits
    [size_t] and a filter id without a NUL byte, parsing what
    [createFilteredRootId] made gives both back. *)
Theorem root_id_round_trip (inner filterId : string) :
  N.of_nat (String.length inner) < 2 ^ 64 ->
  has_NUL filterId = false ->
  parseFilterIdFromRootId (mkRootId (createFilteredRootId inner filterId))
  = Ok (mkRootId inner, filterId).
Proof. apply parse_create_without_NUL. Qed.

Lemma root_id_round_trip_witness :
  N.of_nat (String.length "0123456789abcdef") < 2 ^ 64
  /\ has_NUL "filters/app:v2" = false
  /\ parseFilterIdFromRootId
       (mkRootId (createFilteredRootId "0123456789abcdef" "filters/app:v2"))
     = Ok (mkRootId "0123456789abcdef", "filters/app:v2").
Proof.
  assert (Hsize : N.of_nat (String.length "0123456789abcdef") < 2 ^ 64)
    by reflexivity.
  split; [exact Hsize|]. split; [reflexivity|].
  exact (root_id_round_trip "0123456789abcdef" "filters/app:v2" Hsize eq_refl).
Defined.

(** X2: [createFilteredRootId] is injective: two pairs of an inner root id
    and a filter id with the same filtered root id are the same pair, NUL
    bytes or not. *)
Theorem createFilteredRootId_injective (inner1 filter1 inner2 filter2 : string) :
  N.of_nat (String.length inner1) < 2 ^ 64 ->
  N.of_nat (String.length inner2) < 2 ^ 64 ->
  createFilteredRootId inner1 filter1 = createFilteredRootId inner2 filter2 ->
  inner1 = inner2 /\ filter1 = filter2.
Proof.
  intros H1 H2 Heq. unfold createFilteredRootId in Heq. cbn [append] in Heq.
  rewrite !append_assoc in Heq.
  apply (f_equal Varint.tryDecodeVarint) in Heq.
  rewrite !VarintFacts.tryDecodeVarint_encodeVarint in Heq.
  unfold Varint.uint64_t in Heq. rewrite !N.mod_small in Heq by assumption.
  injection Heq as Hlen Hbytes.
  pose proof (read_n_prefix inner1 filter1) as R1.
  pose proof (skip_n_prefix inner1 filter1) as S1.
  rewrite Hlen, Hbytes, read_n_prefix in R1.
  rewrite Hlen, Hbytes, skip_n_prefix in S1.
  split; congruence.
Qed.

Lemma createFilteredRootId_injective_witness :
  N.of_nat (String.length "r") < 2 ^ 64
  /\ createFilteredRootId "r" (String NUL "F")
     = createFilteredRootId "r" (String NUL "F")
  /\ "r" = "r" /\ String NUL "F" = String NUL "F".
Proof.
  assert (Hsize : N.of_nat (String.length "r") < 2 ^ 64) by reflexivity.
  split; [exact Hsize|]. split; [reflexivity|].
  exact (createFilteredRootId_injective "r" (String NUL "F") "r" (String NUL "F")
           Hsize Hsize eq_refl).
Defined.

(** X3: what [parseFilterIdFromRootId] does on an input of the form it
    expects, and on one without a length.  It throws
    [std::invalid_argument] when the varint does not decode; when the
    varint decodes to [n] and at least [n] bytes follow, it returns those
    [n] bytes as root id and the bytes behind them, up to the first NUL, as
    filter id. *)
Theorem parseFilterIdFromRootId_outcome (rootId : RootId) :
  match Varint.tryDecodeVarint (value rootId) with
  | Varint.Unexpected _ =>
      exists msg, parseFilterIdFromRootId rootId = Throw (invalid_argument msg)
  | Varint.Expect (n, rest) =>
      n <= N.of_nat (String.length rest) ->
      exists root tail,
        rest = root ++ tail
        /\ N.of_nat (String.length root) = n
        /\ parseFilterIdFromRootId rootId = Ok (mkRootId root, c_str tail)
  end.
Proof.
  destruct (Varint.tryDecodeVarint (value rootId)) as [[n rest]|e] eqn:Hdec.
  - intros Hle.
    destruct (split_at rest n Hle) as (root & tail & -> & Hlen).
    exists root, tail. repeat split; [exact Hlen|].
    apply parse_split. now rewrite Hlen.
  - eapply parse_undecodable; eassumption.
Qed.

(** A root id and a filter id after the varint, and no varint at all. *)
Lemma parseFilterIdFromRootId_outcome_witness :
  (exists root tail,
     "rF" = root ++ tail
     /\ N.of_nat (String.length root) = 1
     /\ parseFilterIdFromRootId (mkRootId (String "001" "rF"))
        = Ok (mkRootId root, c_str tail))
  /\ exists msg,
       parseFilterIdFromRootId (mkRootId "") = Throw (invalid_argument msg).
Proof.
  assert (Hle : 1 <= N.of_nat (String.length "rF"))
    by (intros H; discriminate H).
  split.
  - exact (parseFilterIdFromRootId_outcome (mkRootId (String "001" "rF")) Hle).
  - exact (parseFilterIdFromRootId_outcome (mkRootId "")).
Defined.

Lemma render_created (inner filterId : string) :
  N.of_nat (String.length inner) < 2 ^ 64 ->
  has_NUL filterId = false ->
  renderRootId (mkRootId (createFilteredRootId inner filterId))
  = Ok (createFilteredRootId inner filterId).
Proof.
  intros Hsize Hnul. unfold renderRootId.
  now rewrite parse_create_without_NUL.
Qed.

(** X4: [renderRootId] returns a filtered root id made by
    [createFilteredRootId] unchanged, when the filter id has no NUL. *)
Theorem renderRootId_of_created (inner filterId : string) :
  N.of_nat (String.length inner) < 2 ^ 64 ->
  has_NUL filterId = false ->
  renderRootId (mkRootId (createFilteredRootId inner filterId))
  = Ok (createFilteredRootId inner filterId).
Proof. apply render_created. Qed.

Lemma renderRootId_of_created_witness :
  N.of_nat (String.length "r") < 2 ^ 64
  /\ has_NUL "F" = false
  /\ renderRootId (mkRootId (createFilteredRootId "r" "F"))
     = Ok (createFilteredRootId "r" "F").
Proof.
  assert (Hsize : N.of_nat (String.length "r") < 2 ^ 64) by reflexivity.
  split; [exact Hsize|]. split; [reflexivity|].
  exact (renderRootId_of_created "r" "F" Hsize eq_refl).
Defined.

(** X5: [renderRootId] is idempotent: what it renders, it renders to
    itself. *)
Theorem renderRootId_idempotent (rootId : RootId) (rendered : string) :
  renderRootId rootId = Ok rendered ->
  renderRootId (mkRootId rendered) = Ok rendered.
Proof.
  unfold renderRootId at 1.
  destruct (parseFilterIdFromRootId rootId) as [[root filterId]|e|] eqn:Hparse;
    try discriminate.
  cbn [bind]. intros [= <-].
  destruct (parse_Ok_inv _ _ _ Hparse) as (tail & Hdec & ->).
  apply render_created.
  - eapply tryDecodeVarint_bound. exact Hdec.
  - apply c_str_has_no_NUL.
Qed.

Lemma renderRootId_idempotent_witness :
  renderRootId (mkRootId (createFilteredRootId "r" (String NUL "F")))
  = Ok (createFilteredRootId "r" "")
  /\ renderRootId (mkRootId (createFilteredRootId "r" "")) 
     = Ok (createFilteredRootId "r" "").
Proof.
  assert (H : renderRootId (mkRootId (createFilteredRootId "r" (String NUL "F")))
              = Ok (createFilteredRootId "r" "")) by reflexivity.
  split; [exact H|].
  exact (renderRootId_idempotent _ _ H).
Defined.

End RootIdFacts.

(* ------------------------------------------------------------------ *)
(** ** The remaining member functions *)

Module RestFacts.
Import FilteredObjectId FilteredBackingStore FilteredBackingStoreRest.

Section Rest.
Context {backingStoreRest_ : BackingStoreRest} {codec : Codec}.

(** X6: [parseRootId] keeps the filter id and lets the inner store parse
    the inner root id: on the filtered root id of [inner] and a filter id
    without a NUL it returns the filtered root id of the parsed inner root
    id and the same filter id, which parses back to that pair. *)
Theorem parseRootId_keeps_filter (inner filterId : string) (parsed : RootId) :
  N.of_nat (String.length inner) < 2 ^ 64 ->
  has_NUL filterId = false ->
  inner_parseRootId inner = Value parsed ->
  parseRootId (createFilteredRootId inner filterId)
  = Ok (mkRootId (createFilteredRootId (value parsed) filterId))
  /\ (N.of_nat (String.length (value parsed)) < 2 ^ 64 ->
      parseFilterIdFromRootId
        (mkRootId (createFilteredRootId (value parsed) filterId))
      = Ok (parsed, filterId)).
Proof.
  intros Hsize Hnul Hinner. split.
  - unfold parseRootId. rewrite parse_create_without_NUL by assumption.
    cbn [bind value]. rewrite Hinner. reflexivity.
  - intros Hparsed. rewrite parse_create_without_NUL by assumption.
    now destruct parsed.
Qed.

(** X7: [importManifestForRoot] drops the filter id: the inner store is
    handed the inner root id, whatever filter id the filtered root id
    carries. *)
Theorem importManifestForRoot_drops_filter (inner filterId : string)
  (manifest : Hash20) :
  N.of_nat (String.length inner) < 2 ^ 64 ->
  importManifestForRoot (mkRootId (createFilteredRootId inner filterId)) manifest
  = Ok (lift (inner_importManifestForRoot (mkRootId inner) manifest)).
Proof.
  intros Hsize. unfold importManifestForRoot.
  now rewrite parse_create.
Qed.


(** A filtered id that does not decode is refused before the inner store
    is asked. *)
Lemma getBlob_malformed (id : ObjectId) (e : exception) :
  decode id = Exception e -> getBlob id = Throw e.
Proof.
  intros H. unfold getBlob, fromObjectId. now rewrite H.
Qed.

End Rest.

Section Trees.
Context {backingStore_ : BackingStore} {filter_ : Filter} {codec : Codec}.


(** Readiness of the transform: every filter evaluation must be ready. *)
Lemma filterImpl_isReady (unfilteredTree : Tree) (treePath : RelativePath)
  (filterId : string) :
  isReady (filterImpl unfilteredTree treePath filterId)
  = forallb (fun kv => isReady (isPathFiltered
                                  (path_append treePath (fst kv)) filterId))
            (PathMap.items (treeEntries unfilteredTree)).
Proof.
  unfold filterImpl. cbv zeta. unfold thenValue at 1, collectAll.
  cbn [isReady].
  induction (PathMap.items (treeEntries unfilteredTree)) as [|[name entry] l IH];
    [reflexivity|].
  cbn [map forallb fst]. rewrite IH. reflexivity.
Qed.

(** X10: [getRootTree] answers synchronously exactly when the inner store
    does and the filter does for every child of the root tree: the future
    it returns is ready if and only if the inner future and all the
    per-child filter futures are. *)
Theorem getRootTree_isReady (rootId parsedRootId : RootId) (filterId : string)
  (rootTreeResult : GetRootTreeResult) :
  parseFilterIdFromRootId rootId = Ok (parsedRootId, filterId) ->
  result (inner_getRootTree parsedRootId) = Value rootTreeResult ->
  exists fut,
    getRootTree rootId = Ok fut
    /\ isReady fut
       = isReady (inner_getRootTree parsedRootId)
         && forallb (fun kv => isReady (isPathFiltered
                                          (path_append [] (fst kv)) filterId))
                    (PathMap.items (treeEntries (tree rootTreeResult))).
Proof.
  intros Hparse Hinner. unfold getRootTree. rewrite Hparse. cbn [bind].
  eexists. split; [reflexivity|].
  unfold thenFuture, lift. cbn [result]. rewrite Hinner. cbn [ofTry isReady].
  unfold thenValue at 1. cbn [isReady].
  now rewrite filterImpl_isReady.
Qed.

(** X11: what [prefetchBlobs] does on any list of ids.  The empty list
    goes to the inner store as the empty batch; on a non-empty list the
    first id decides: if it does not decode, its decoding error is thrown,
    and if it decodes, its inner id is assigned through [begin()] of the
    empty vector.  So the call returns only for the empty list. *)
Theorem prefetchBlobs_returns_only_for_nil (ids : list ObjectId) :
  prefetchBlobs ids
  = match ids with
    | [] => Ok (lift (inner_prefetchBlobs []))
    | id :: _ =>
        match decode id with
        | Value _ => Undefined
        | Exception e => Throw e
        end
    end
  /\ forall fut, prefetchBlobs ids = Ok fut -> ids = [].
Proof.
  assert (Hall : prefetchBlobs ids
                 = match ids with
                   | [] => Ok (lift (inner_prefetchBlobs []))
                   | id :: _ =>
                       match decode id with
                       | Value _ => Undefined
                       | Exception e => Throw e
                       end
                   end).
  { destruct ids as [|id ids]; [reflexivity|].
    unfold prefetchBlobs, prefetchBlobs_batch, fromObjectId.
    cbn [std_transform]. destruct (decode id); reflexivity. }
  split; [exact Hall|].
  intros fut. rewrite Hall. destruct ids as [|id ids]; [reflexivity|].
  destruct (decode id); discriminate.
Qed.

End Trees.
End RestFacts.

(* ------------------------------------------------------------------ *)
(** ** More on the comparison oracle *)

Module CompareMoreFacts.
Import FilteredObjectId FilteredBackingStore CompareSpec CompareFacts.

Section Compare.
Context {backingStore_ : BackingStore} {filter_ : Filter} {codec : Codec}.

Lemma compare_Ok_decoded (one two : ObjectId) (res : ObjectComparison) :
  one <> two ->
  compareObjectsById one two = Ok res ->
  exists F1 F2, decode one = Value F1 /\ decode two = Value F2.
Proof.
  intros Hne. unfold compareObjectsById, fromObjectId.
  apply String.eqb_neq in Hne. rewrite Hne.
  destruct (decode one) as [F1|e1]; [|discriminate].
  destruct (decode two) as [F2|e2]; [|discriminate]. eauto.
Qed.

Lemma downgraded_not_Identical (res : ObjectComparison) :
  downgraded res <> Identical.
Proof. destruct res; discriminate. Qed.

Lemma ofTry_Ok_inv {T} (t : Try T) (v : T) : ofTry t = Ok v -> t = Value v.
Proof. destruct t; simpl; congruence. Qed.

(** X14: the oracle answers [Identical] only for byte-equal ids or for two
    ids of the same kind, under the same filter if they are trees, whose
    inner ids the inner store calls [Identical]. *)
Theorem compareObjectsById_Identical_inv (one two : ObjectId) :
  compareObjectsById one two = Ok Identical ->
  one = two
  \/ exists F1 F2,
       decode one = Value F1 /\ decode two = Value F2
       /\ f_type F1 = f_type F2
       /\ f_filter F1 = f_filter F2
       /\ inner_compareObjectsById (f_object F1) (f_object F2)
          = Value Identical.
Proof.
  intros Hres. destruct (String.eqb_spec one two) as [->|Hne]; [auto|].
  right.
  destruct (compare_Ok_decoded one two _ Hne Hres) as (F1 & F2 & H1 & H2).
  exists F1, F2. split; [exact H1|]. split; [exact H2|].
  rewrite (compare_decoded one two F1 F2 Hne H1 H2) in Hres.
  destruct F1 as [o1|p1 f1 o1|t1 o1], F2 as [o2|p2 f2 o2|t2 o2];
    try discriminate Hres; cbn [f_type f_filter f_object].
  - apply ofTry_Ok_inv in Hres. auto.
  - destruct (String.eqb_spec f1 f2) as [->|Hf].
    + apply ofTry_Ok_inv in Hres. auto.
    + exfalso.
      destruct (isReady (pathAffectedByFilterChange p1 p2 f1 f2));
        [|discriminate Hres].
      destruct (result (pathAffectedByFilterChange p1 p2 f1 f2))
        as [[|]|e|]; try discriminate Hres.
      cbn [bind] in Hres.
      destruct (inner_compareObjectsById o1 o2) as [res|e];
        [|discriminate Hres].
      cbn [ofTry bind] in Hres. injection Hres as Hres.
      exact (downgraded_not_Identical _ Hres).
  - destruct (t1 =? t2); discriminate Hres.
Qed.

End Compare.
End CompareMoreFacts.

Module RestScenarios.
Import FilteredObjectId FilteredBackingStore FilteredBackingStoreRest.
Import CompareMoreFacts RestFacts Scenario ScenarioRest.

Lemma parseRootId_keeps_filter_witness :
  N.of_nat (String.length "r") < 2 ^ 64
  /\ has_NUL "F" = false
  /\ inner_parseRootId "r" = Value (mkRootId "r")
  /\ parseRootId (createFilteredRootId "r" "F")
     = Ok (mkRootId (createFilteredRootId "r" "F")).
Proof.
  assert (Hsize : N.of_nat (String.length "r") < 2 ^ 64) by reflexivity.
  split; [exact Hsize|]. split; [reflexivity|]. split; [reflexivity|].
  exact (proj1 (parseRootId_keeps_filter "r" "F" (mkRootId "r")
                  Hsize eq_refl eq_refl)).
Defined.

Lemma importManifestForRoot_drops_filter_witness :
  N.of_nat (String.length "r") < 2 ^ 64
  /\ importManifestForRoot
       (mkRootId (createFilteredRootId "r" (String NUL "F"))) "manifest"
     = Ok (lift (inner_importManifestForRoot (mkRootId "r") "manifest")).
Proof.
  assert (Hsize : N.of_nat (String.length "r") < 2 ^ 64) by reflexivity.
  split; [exact Hsize|].
  exact (importManifestForRoot_drops_filter "r" (String NUL "F") "manifest"
           Hsize).
Defined.



(** Scenario 1 of the spec is answered synchronously. *)
Lemma getRootTree_isReady_witness :
  parseFilterIdFromRootId (mkRootId (createFilteredRootId "r" "F"))
  = Ok (mkRootId "r", "F")
  /\ result (inner_getRootTree (mkRootId "r"))
     = Value (mkGetRootTreeResult rootTree "rtree")
  /\ exists fut,
       getRootTree (mkRootId (createFilteredRootId "r" "F")) = Ok fut
       /\ isReady fut = true.
Proof.
  assert (Hparse : parseFilterIdFromRootId
                     (mkRootId (createFilteredRootId "r" "F"))
                   = Ok (mkRootId "r", "F")) by reflexivity.
  split; [exact Hparse|]. split; [reflexivity|].
  destruct (@getRootTree_isReady store filter codec
              (mkRootId (createFilteredRootId "r" "F")) (mkRootId "r") "F"
              (mkGetRootTreeResult rootTree "rtree") Hparse eq_refl)
    as (fut & Hfut & Hready).
  exists fut. split; [exact Hfut | exact Hready].
Defined.

(** Two tree ids that differ in the path only. *)
Lemma compareObjectsById_Identical_inv_witness :
  compareObjectsById (encode_tree ["p"] "F" "t") (encode_tree ["q"] "F" "t")
  = Ok Identical
  /\ (encode_tree ["p"] "F" "t" = encode_tree ["q"] "F" "t"
      \/ exists F1 F2,
           decode (encode_tree ["p"] "F" "t") = Value F1
           /\ decode (encode_tree ["q"] "F" "t") = Value F2
           /\ f_type F1 = f_type F2
           /\ f_filter F1 = f_filter F2
           /\ inner_compareObjectsById (f_object F1) (f_object F2)
              = Value Identical).
Proof.
  assert (H : compareObjectsById (encode_tree ["p"] "F" "t")
                (encode_tree ["q"] "F" "t") = Ok Identical) by reflexivity.
  split; [exact H|].
  exact (compareObjectsById_Identical_inv _ _ H).
Defined.

End RestScenarios.

(* ------------------------------------------------------------------ *)
(** ** Failures *)

Module FailureFacts.
Import FilteredObjectId FilteredBackingStore FilteredBackingStoreRest.

Section Failures.
Context {backingStore_ : BackingStore} {backingStoreRest_ : BackingStoreRest}
        {filter_ : Filter} {codec : Codec}.

(** X15: a root id whose varint does not decode, the empty root id among
    them, is refused with [std::invalid_argument] by every member function
    that takes a filtered root id, before a future is made. *)
Theorem undecodable_root_id_is_refused (rootId : RootId)
  (err : Varint.DecodeVarintError) (manifest : Hash20) :
  Varint.tryDecodeVarint (value rootId) = Varint.Unexpected err ->
  exists msg,
    getRootTree rootId = Throw (invalid_argument msg)
    /\ importManifestForRoot rootId manifest = Throw (invalid_argument msg)
    /\ parseRootId (value rootId) = Throw (invalid_argument msg)
    /\ renderRootId rootId = Throw (invalid_argument msg).
Proof.
  intros Hdec. destruct (parse_undecodable rootId err Hdec) as (msg & Hparse).
  exists msg.
  unfold getRootTree, importManifestForRoot, parseRootId, renderRootId.
  destruct rootId as [bytes]. cbn [value] in *. rewrite Hparse. auto.
Qed.

(** X16: a failure of the inner store passes through unchanged:
    [getRootTree] and [getTree] return a future that completes with the
    inner store's exception. *)
Theorem inner_failure_passes_through :
  (forall (rootId parsedRootId : RootId) (filterId : string) (e : exception),
     parseFilterIdFromRootId rootId = Ok (parsedRootId, filterId) ->
     result (inner_getRootTree parsedRootId) = Exception e ->
     exists fut,
       getRootTree rootId = Ok fut
       /\ result fut = Throw e
       /\ isReady fut = isReady (inner_getRootTree parsedRootId))
  /\ (forall (id : ObjectId) (F : Fields) (e : exception),
        decode id = Value F ->
        result (inner_getTree (f_object F)) = Exception e ->
        exists fut, getTree id = Ok fut /\ result fut = Throw e).
Proof.
  split.
  - intros rootId parsedRootId filterId e Hparse Hinner.
    unfold getRootTree. rewrite Hparse. cbn [bind].
    eexists. split; [reflexivity|].
    unfold thenFuture, lift. cbn [result]. rewrite Hinner. auto.
  - intros id F e Hdec Hinner. unfold getTree, fromObjectId. rewrite Hdec.
    cbn [ofTry bind]. eexists. split; [reflexivity|].
    unfold deferValue, lift, FilteredObjectId.object. cbn [result fields].
    rewrite Hinner. reflexivity.
Qed.

End Failures.
End FailureFacts.

Module FailureScenarios.
Import FilteredObjectId FilteredBackingStore FilteredBackingStoreRest.
Import FailureFacts Scenario ScenarioRest.

(** The empty root id. *)
Lemma undecodable_root_id_is_refused_witness :
  Varint.tryDecodeVarint (value (mkRootId ""))
  = Varint.Unexpected Varint.TooFewBytes
  /\ exists msg, getRootTree (mkRootId "") = Throw (invalid_argument msg).
Proof.
  split; [reflexivity|].
  destruct (@undecodable_root_id_is_refused store storeRest filter codec
              (mkRootId "") Varint.TooFewBytes "manifest" eq_refl)
    as (msg & Hroot & _).
  exists msg. exact Hroot.
Defined.

Lemma inner_failure_passes_through_witness :
  parseFilterIdFromRootId (mkRootId (createFilteredRootId "r" "F"))
  = Ok (mkRootId "r", "F")
  /\ result (@inner_getRootTree offlineStore (mkRootId "r"))
     = Exception (runtime_error "offline")
  /\ decode (encode_tree ["d"] "F" "t") = Value (treeFields ["d"] "F" "t")
  /\ result (@inner_getTree offlineStore "t")
     = Exception (runtime_error "offline")
  /\ (exists fut,
        @getRootTree offlineStore filter codec
          (mkRootId (createFilteredRootId "r" "F")) = Ok fut
        /\ result fut = Throw (runtime_error "offline"))
  /\ (exists fut,
        @getTree offlineStore filter codec (encode_tree ["d"] "F" "t") = Ok fut
        /\ result fut = Throw (runtime_error "offline")).
Proof.
  assert (Hparse : parseFilterIdFromRootId
                     (mkRootId (createFilteredRootId "r" "F"))
                   = Ok (mkRootId "r", "F")) by reflexivity.
  assert (Hdec : decode (encode_tree ["d"] "F" "t")
                 = Value (treeFields ["d"] "F" "t")) by reflexivity.
  split; [exact Hparse|]. split; [reflexivity|].
  split; [exact Hdec|]. split; [reflexivity|]. split.
  - destruct (proj1 (@inner_failure_passes_through offlineStore filter codec)
                _ _ _ (runtime_error "offline") Hparse eq_refl)
      as (fut & Hfut & Hres & _).
    exists fut. auto.
  - destruct (proj2 (@inner_failure_passes_through offlineStore filter codec)
                _ (treeFields ["d"] "F" "t") (runtime_error "offline")
                Hdec eq_refl)
      as (fut & Hfut & Hres).
    exists fut. auto.
Defined.

End FailureScenarios.
